(** * kubernetes-pressurecooker: eviction-candidate scoring and selection

    A shallow embedding of package [pressurecooker]
    ([pkg/pressurecooker/evict_selection.go] and the watcher constructor)
    together with the properties its specification states about it.

    Conventions of the embedding:
    - Go's [int] (64 bit on the supported targets) is a [Z] whose arithmetic
      wraps around explicitly ([Int.add], [Int.sub]).
    - [time.Duration] is an [int64] count of nanoseconds; an instant is the
      number of nanoseconds since the epoch.  [time.Now()] is an explicit
      argument [now] of the functions that read the clock.
    - A [*v1.Pod] is an address into the backing array of the pod list;
      dereferencing an address outside of it (Go's [nil]) panics, which is
      the [None] of the option monad.
    - The pod heap is threaded through every scoring pass next to the
      candidate set, so that what a pass leaves untouched can be stated.
    - [glog] output is not part of the model. *)

From Stdlib Require Import ZArith Lia Floats Permutation Sorted.
From Stdlib Require Reals Lra.
From stdpp Require Import base option list sorting gmap strings.

Local Open Scope Z_scope.

(** ** Machine integers *)

Module Int.
Definition min : Z := - 2 ^ 63.
Definition max : Z := 2 ^ 63 - 1.

(** Two's complement reduction into [[min, max]]. *)
Definition wrap (z : Z) : Z := (z + 2 ^ 63) mod 2 ^ 64 - 2 ^ 63.

Definition add (a b : Z) : Z := wrap (a + b).
Definition sub (a b : Z) : Z := wrap (a - b).

Definition InRange (z : Z) : Prop := min <= z <= max.
End Int.

(** ** Package time *)

Module time.
Definition Duration : Type := Z.
Definition Instant : Type := Z.

Definition Nanosecond : Duration := 1.
Definition Second : Duration := 1000000000.

Definition minDuration : Duration := - 2 ^ 63.
Definition maxDuration : Duration := 2 ^ 63 - 1.

(** [t.Sub(u)] for two wall-clock readings: the difference [t - u],
    saturated to the range of [Duration]. *)
Definition Sub (t u : Instant) : Duration :=
  Z.max minDuration (Z.min maxDuration (t - u)).
End time.

(** ** Package math *)

Module math.
(** The least integer above [e^k], for [k = 1 .. 44]; the last entry is
    the first one beyond the range of [int64]. *)
Definition expCeil : list Z :=
  [3; 8; 21; 55; 149; 404; 1097; 2981; 8104; 22027; 59875; 162755; 442414;
   1202605; 3269018; 8886111; 24154953; 65659970; 178482301; 485165196;
   1318815735; 3584912847; 9744803447; 26489122130; 72004899338;
   195729609429; 532048240602; 1446257064292; 3931334297145;
   10686474581525; 29048849665248; 78962960182681; 214643579785917;
   583461742527455; 1586013452313431; 4311231547115196; 11719142372802612;
   31855931757113757; 86593400423993747; 235385266837019986;
   639843493530054950; 1739274941520501048; 4727839468229346562;
   12851600114359308276].

(** Number of leading entries of an ascending table that are [<= y]. *)
Fixpoint countLe (y : Z) (ts : list Z) : Z :=
  match ts with
  | [] => 0
  | t :: ts' => if t <=? y then 1 + countLe y ts' else 0
  end.

(** [int(math.Floor(math.Log1p(float64(x))))] for an integer [x >= 0].
    The conversion to [float64] is exact below [2^53] (the ages the
    program passes stay below [2^34]) and no [e^k] in that range is
    within [1e-5] of an integer, so the rounding of [Log1p] never moves
    the floor: the result is the greatest [k] with [e^k <= 1 + x].
    [LogSpec.FloorLog1p_spec] relates it to the real logarithm. *)
Definition FloorLog1p (x : Z) : Z := countLe (1 + x) expCeil.
End math.

(** ** A rational enclosure of e, to certify the table of [math.expCeil] *)

Module Enclosure.
(** Fixed-point numbers with 200 fractional bits. *)
Definition scale : Z := 2 ^ 200.

(** Squaring, rounded down and rounded up. *)
Definition sqLo (l : Z) : Z := l * l / scale.
Definition sqUp (u : Z) : Z := u * u / scale + 1.

(** [1 + x <= exp x < 1 / (1 - x)] at [x = 2^-100]. *)
Definition lo0 : Z := 2 ^ 200 + 2 ^ 100.
Definition up0 : Z := 2 ^ 300 / (2 ^ 100 - 1) + 1.

Fixpoint iterSq (f : Z → Z) (n : nat) (z : Z) : Z :=
  match n with
  | O => z
  | S n' => iterSq f n' (f z)
  end.

(** After 100 squarings: [eLo / scale <= e < eUp / scale]. *)
Definition eLo : Z := Eval vm_compute in iterSq sqLo 100 lo0.
Definition eUp : Z := Eval vm_compute in iterSq sqUp 100 up0.

(** With [lo = eLo^k], [up = eUp^k] and [sc = scale^k]: every entry [t]
    of the table, from the [k]-th power on, has [t - 1 < e^k < t]. *)
Fixpoint checkTable (lo up sc : Z) (ts : list Z) : bool :=
  match ts with
  | [] => true
  | t :: ts' =>
      ((t - 1) * sc <? lo) && (up <? t * sc)
      && checkTable (lo * eLo) (up * eUp) (sc * scale) ts'
  end.
End Enclosure.

(** The real-number reading of "the floor of [log (1 + x)]". *)
Module RealSpec.
Import Stdlib.Reals.Reals.
Definition IsFloorLog1p (x k : Z) : Prop :=
  (IZR k <= ln (1 + IZR x) < IZR k + 1)%R.

(** The point where the enclosure of [exp] starts. *)
Definition x0 : R := (/ 2 ^ 100)%R.
End RealSpec.

(** ** The part of k8s.io/api/core/v1 the package reads *)

Module v1.
Definition PodQOSClass : Type := string.
Definition PodQOSGuaranteed : PodQOSClass := "Guaranteed".
Definition PodQOSBurstable : PodQOSClass := "Burstable".
Definition PodQOSBestEffort : PodQOSClass := "BestEffort".

Record OwnerReference : Type := mkOwnerReference { Kind : string }.

Record PodSpec : Type := mkPodSpec { PriorityClassName : string }.

Record PodStatus : Type := mkPodStatus {
  QOSClass : PodQOSClass;
  StartTime : option time.Instant   (* *metav1.Time, nil when unset *)
}.

Record Pod : Type := mkPod {
  Namespace : string;
  Name : string;
  Annotations : gmap string string;
  OwnerReferences : list OwnerReference;
  Spec : PodSpec;
  Status : PodStatus
}.

Record PodList : Type := mkPodList { Items : list Pod }.
End v1.

(** ** Package sort: the interface and the stable sort *)

Module sort.
(** [sort.Interface]; [Less] and [Swap] index the collection and panic
    out of range. *)
Class Interface (D : Type) : Type := {
  Len : D → nat;
  Less : D → nat → nat → option bool;
  Swap : D → nat → nat → option D
}.

(** [sort.Reverse]: the same collection with the arguments of [Less]
    exchanged. *)
Definition Reverse {D : Type} (I : Interface D) : Interface D :=
  {| Len := @Len D I;
     Less := λ d i j, @Less D I d j i;
     Swap := @Swap D I |}.

Section Stable.
Context {D : Type} (I : Interface D).

(** The inner loop of [insertionSort]:
    [for j := i; j > a && data.Less(j, j-1); j-- { data.Swap(j, j-1) }] *)
Fixpoint siftDown (a j : nat) (d : D) : option D :=
  match j with
  | O => Some d
  | S j' =>
      if decide (a < j)%nat then
        lt ← @Less D I d j j';
        if lt : bool then d' ← @Swap D I d j j'; siftDown a j' d'
        else Some d
      else Some d
  end.

(** The outer loop, [n] iterations from index [i] on. *)
Fixpoint insertionLoop (a n i : nat) (d : D) : option D :=
  match n with
  | O => Some d
  | S n' => d' ← siftDown a i d; insertionLoop a n' (S i) d'
  end.

(** [insertionSort(data, a, b)] sorts the range [[a, b)]. *)
Definition insertionSort (d : D) (a b : nat) : option D :=
  insertionLoop a (b - (a + 1)) (a + 1) d.

(** [sort.Stable].  Go sorts blocks of 20 elements with
    [insertionSort] and merges them with [symMerge]; up to 20 elements
    that is [insertionSort(data, 0, n)] itself, and beyond it the
    outcome is the same list, because the stable sort of a list is
    unique ([stable_sort_unique] below). *)
Definition Stable (d : D) : option D := insertionSort d 0 (@Len D I d).
End Stable.
End sort.

(** ** Candidates *)

(** An address of a pod in the heap. *)
Abbreviation ptr := nat (only parsing).

Record PodCandidate : Type := mkPodCandidate {
  Pod : ptr;
  Score : Z
}.

Abbreviation PodCandidateSet := (list PodCandidate) (only parsing).

Definition Len (s : PodCandidateSet) : nat := length s.

Definition Less (s : PodCandidateSet) (i j : nat) : option bool :=
  a ← s !! i; b ← s !! j; Some (Score a <? Score b).

Definition Swap (s : PodCandidateSet) (i j : nat) : option PodCandidateSet :=
  x ← s !! i; y ← s !! j; Some (<[j := x]> (<[i := y]> s)).

#[export] Instance PodCandidateSet_Interface : sort.Interface PodCandidateSet :=
  {| sort.Len := Len; sort.Less := Less; sort.Swap := Swap |}.

(** The memory a call works on: the pods (read through the candidates'
    pointers) and the candidate slice, which the callee mutates in place. *)
Record State : Type := mkState {
  heap : list v1.Pod;
  cands : PodCandidateSet
}.

Definition PodCandidateSetFromPodList (l : v1.PodList) : State :=
  {| heap := v1.Items l;
     cands := imap (λ i _, {| Pod := i; Score := 0 |}) (v1.Items l) |}.

(** The body of [for i := range s { ... s[i].Score ... s[i].Pod.F ... }]:
    candidate [c] has its score rewritten from the pod it points to. *)
Definition rescore (body : v1.Pod → Z → Z) (h : list v1.Pod)
    (c : PodCandidate) : option PodCandidate :=
  pod ← h !! Pod c;
  Some {| Pod := Pod c; Score := body pod (Score c) |}.

(** The loop itself, over every candidate in turn. *)
Definition forEach (body : v1.Pod → Z → Z) (st : State) : option State :=
  s' ← mapM (rescore body (heap st)) (cands st);
  Some {| heap := heap st; cands := s' |}.

(** ** The four scoring passes *)

Definition qosBody (pod : v1.Pod) (score : Z) : Z :=
  let q := v1.QOSClass (v1.Status pod) in
  if String.eqb q v1.PodQOSBestEffort then Int.add score 100
  else if String.eqb q v1.PodQOSBurstable then Int.add score 100
  else score.

Definition scoreByQOSClass : State → option State := forEach qosBody.

(** Lines 74-86: the bonus of a pod that is old enough. *)
Definition ageBonus (delta : time.Duration) : Z :=
  let age := delta ÷ time.Second in
  let age := if age <? 1 then 1 else age in
  math.FloorLog1p age.

Definition ageBody (now : time.Instant) (minPodAge : time.Duration)
    (pod : v1.Pod) (score : Z) : Z :=
  match v1.StartTime (v1.Status pod) with
  | None => Int.sub score 10000
  | Some start =>
      let delta := time.Sub now start in
      if delta <? minPodAge then Int.sub score 10000
      else Int.add score (ageBonus delta)
  end.

Definition scoreByAge (now : time.Instant) (minPodAge : time.Duration)
    : State → option State :=
  forEach (ageBody now minPodAge).

(** The [switch o.Kind] of the inner loop. *)
Definition ownerRefStep (score : Z) (o : v1.OwnerReference) : Z :=
  if String.eqb (v1.Kind o) "ReplicaSet" then Int.add score 100
  else if String.eqb (v1.Kind o) "StatefulSet" then Int.sub score 10000
  else if String.eqb (v1.Kind o) "DaemonSet" then Int.sub score 10000
  else score.

Definition ownerBody (pod : v1.Pod) (score : Z) : Z :=
  let refs := v1.OwnerReferences pod in
  let score := if (length refs =? 0)%nat then Int.sub score 1000 else score in
  fold_left ownerRefStep refs score.

Definition scoreByOwnerType : State → option State := forEach ownerBody.

Definition criticalPodAnnotation : string :=
  "scheduler.alpha.kubernetes.io/critical-pod".

Definition critBody (pod : v1.Pod) (score : Z) : Z :=
  let score :=
    if String.eqb (v1.Namespace pod) "kube-system"
    then Int.sub score 10000 else score in
  let score :=
    let pc := v1.PriorityClassName (v1.Spec pod) in
    if String.eqb pc "system-cluster-critical" then Int.sub score 10000
    else if String.eqb pc "system-node-critical" then Int.sub score 10000
    else score in
  match v1.Annotations pod !! criticalPodAnnotation with
  | Some _ => Int.sub score 10000
  | None => score
  end.

Definition scoreByCriticality : State → option State := forEach critBody.

(** ** Selection *)

(** The final loop: the pod of the first candidate whose score is not
    negative, [None] (Go's [nil]) when there is none. *)
Fixpoint firstNonNegative (s : PodCandidateSet) : option ptr :=
  match s with
  | [] => None
  | c :: s' => if Score c <? 0 then firstNonNegative s' else Some (Pod c)
  end.

Definition SelectPodForEviction (now : time.Instant)
    (minPodAge : time.Duration) (st : State) : option (option ptr * State) :=
  st ← scoreByAge now minPodAge st;
  st ← scoreByQOSClass st;
  st ← scoreByOwnerType st;
  st ← scoreByCriticality st;
  s ← sort.Stable (sort.Reverse PodCandidateSet_Interface) (cands st);
  Some (firstNonNegative s, {| heap := heap st; cands := s |}).

(** ** The pressure watcher's constructor *)

Module procfs.
Record FS : Type := mkFS { mountPoint : string }.
Definition DefaultMountPoint : string := "/proc".
End procfs.

Definition error : Type := string.

Record Watcher : Type := mkWatcher {
  TickerInterval : time.Duration;
  PressureThreshold : float;
  proc : procfs.FS;
  isCurrentlyHigh : bool
}.

(** [procfs.NewDefaultFS()] answers from the host: [newDefaultFS] is what
    it returned, a file system handle or an error. *)
Definition NewWatcher (newDefaultFS : procfs.FS + error)
    (pressureThreshold : float) : Watcher + error :=
  let pressureThreshold :=
    if PrimFloat.eqb pressureThreshold 0 then 25%float
    else pressureThreshold in
  match newDefaultFS with
  | inr err => inr err
  | inl fs =>
      inl {| PressureThreshold := pressureThreshold;
             TickerInterval := 15 * time.Second;
             proc := fs;
             isCurrentlyHigh := false |}
  end.

(** ** Vocabulary of the specification *)

(** Every candidate points into the heap (no [nil] pod). *)
Definition validState (st : State) : Prop :=
  Forall (λ c, (Pod c < length (heap st))%nat) (cands st).

(** The four passes in the order [SelectPodForEviction] runs them, on one
    candidate. *)
Definition finalScore (now : time.Instant) (minPodAge : time.Duration)
    (pod : v1.Pod) (score : Z) : Z :=
  critBody pod (ownerBody pod (qosBody pod (ageBody now minPodAge pod score))).

Definition isReplicaSet (o : v1.OwnerReference) : Prop :=
  v1.Kind o = "ReplicaSet".

Definition isVetoKind (o : v1.OwnerReference) : Prop :=
  v1.Kind o = "StatefulSet" ∨ v1.Kind o = "DaemonSet".

#[export] Instance isReplicaSet_dec o : Decision (isReplicaSet o).
Proof. unfold isReplicaSet. apply _. Defined.

#[export] Instance isVetoKind_dec o : Decision (isVetoKind o).
Proof. unfold isVetoKind. apply _. Defined.

Definition replicaSetRefs (pod : v1.Pod) : Z :=
  Z.of_nat (length (filter isReplicaSet (v1.OwnerReferences pod))).

Definition vetoRefs (pod : v1.Pod) : Z :=
  Z.of_nat (length (filter isVetoKind (v1.OwnerReferences pod))).

(** What one owner reference contributes. *)
Definition refDelta (o : v1.OwnerReference) : Z :=
  if decide (isReplicaSet o) then 100
  else if decide (isVetoKind o) then -10000
  else 0.

(** Sum of the contributions of a list of owner references. *)
Definition refsDelta (refs : list v1.OwnerReference) : Z :=
  100 * Z.of_nat (length (filter isReplicaSet refs))
  - 10000 * Z.of_nat (length (filter isVetoKind refs)).

(** Net contribution of the owner-type pass, before wrap-around. *)
Definition ownerDelta (pod : v1.Pod) : Z :=
  (if decide (v1.OwnerReferences pod = []) then -1000 else 0)
  + 100 * replicaSetRefs pod - 10000 * vetoRefs pod.

Definition qosDelta (pod : v1.Pod) : Z :=
  if decide (v1.QOSClass (v1.Status pod) = v1.PodQOSBestEffort
             ∨ v1.QOSClass (v1.Status pod) = v1.PodQOSBurstable)
  then 100 else 0.

(** The age pass vetoes: no start time, or younger than [minPodAge]. *)
Definition ageVeto (now : time.Instant) (minPodAge : time.Duration)
    (pod : v1.Pod) : Prop :=
  match v1.StartTime (v1.Status pod) with
  | None => True
  | Some start => time.Sub now start < minPodAge
  end.

Definition ageDelta (now : time.Instant) (minPodAge : time.Duration)
    (pod : v1.Pod) : Z :=
  match v1.StartTime (v1.Status pod) with
  | None => -10000
  | Some start =>
      if decide (time.Sub now start < minPodAge) then -10000
      else math.FloorLog1p (Z.max 1 (time.Sub now start ÷ time.Second))
  end.

Definition ownerVeto (pod : v1.Pod) : Prop :=
  Exists isVetoKind (v1.OwnerReferences pod).

Definition inSystemNamespace (pod : v1.Pod) : Prop :=
  v1.Namespace pod = "kube-system".

Definition hasCriticalPriority (pod : v1.Pod) : Prop :=
  v1.PriorityClassName (v1.Spec pod) = "system-cluster-critical"
  ∨ v1.PriorityClassName (v1.Spec pod) = "system-node-critical".

Definition hasCriticalAnnotation (pod : v1.Pod) : Prop :=
  is_Some (v1.Annotations pod !! criticalPodAnnotation).

Definition critVeto (pod : v1.Pod) : Prop :=
  inSystemNamespace pod ∨ hasCriticalPriority pod ∨ hasCriticalAnnotation pod.

Definition critDelta (pod : v1.Pod) : Z :=
  (if decide (inSystemNamespace pod) then -10000 else 0)
  + (if decide (hasCriticalPriority pod) then -10000 else 0)
  + (if decide (hasCriticalAnnotation pod) then -10000 else 0).

(** At least one pass applies a veto of -10000. *)
Definition vetoed (now : time.Instant) (minPodAge : time.Duration)
    (pod : v1.Pod) : Prop :=
  ageVeto now minPodAge pod ∨ ownerVeto pod ∨ critVeto pod.

(** What [forEach] relates: same pod, score rewritten by [body]. *)
Definition rescored (body : v1.Pod → Z → Z) (h : list v1.Pod)
    (c c' : PodCandidate) : Prop :=
  ∃ pod, h !! Pod c = Some pod
         ∧ c' = {| Pod := Pod c; Score := body pod (Score c) |}.

(** What a pass that adds [delta] relates: same pod, score plus delta. *)
Definition adds (delta : v1.Pod → Z) (h : list v1.Pod)
    (c c' : PodCandidate) : Prop :=
  ∃ pod, h !! Pod c = Some pod
         ∧ Pod c' = Pod c
         ∧ Score c' = Int.add (Score c) (delta pod).

(** Nothing but scores changed: same heap, same pods in the same order. *)
Definition framed (st st' : State) : Prop :=
  heap st' = heap st ∧ Pod <$> cands st' = Pod <$> cands st.

(** An owner reference of a kind the owner-type pass does not know. *)
Definition unrecognized (o : v1.OwnerReference) : Prop :=
  ¬ isReplicaSet o ∧ ¬ isVetoKind o.

(** The four passes, each with the delta it adds, in the order of
    [SelectPodForEviction]. *)
Definition passes (now : time.Instant) (minPodAge : time.Duration)
    : list ((v1.Pod → Z → Z) * (v1.Pod → Z)) :=
  [(ageBody now minPodAge, ageDelta now minPodAge);
   (qosBody, qosDelta);
   (ownerBody, ownerDelta);
   (critBody, critDelta)].

(** Passes run one after the other on one candidate. *)
Definition runPasses (ps : list ((v1.Pod → Z → Z) * (v1.Pod → Z)))
    (pod : v1.Pod) (score : Z) : Z :=
  fold_left (λ sc p, p.1 pod sc) ps score.

(** Sum of what the four passes add to a pod's candidate, before
    wrap-around. *)
Definition totalDelta (now : time.Instant) (minPodAge : time.Duration)
    (pod : v1.Pod) : Z :=
  ageDelta now minPodAge pod + qosDelta pod + ownerDelta pod + critDelta pod.

(** [pod] with the critical-pod annotation set to [value]. *)
Definition withCriticalAnnotation (pod : v1.Pod) (value : string) : v1.Pod :=
  {| v1.Namespace := v1.Namespace pod;
     v1.Name := v1.Name pod;
     v1.Annotations := <[criticalPodAnnotation := value]> (v1.Annotations pod);
     v1.OwnerReferences := v1.OwnerReferences pod;
     v1.Spec := v1.Spec pod;
     v1.Status := v1.Status pod |}.

(** Number of criticality conditions a pod meets. *)
Definition critCount (pod : v1.Pod) : Z :=
  (if decide (inSystemNamespace pod) then 1 else 0)
  + (if decide (hasCriticalPriority pod) then 1 else 0)
  + (if decide (hasCriticalAnnotation pod) then 1 else 0).

(** ** Sample pods *)

Definition sampleNow : time.Instant := 1800000000 * time.Second.

Definition startedAgo (seconds : Z) : option time.Instant :=
  Some (sampleNow - seconds * time.Second).

Definition samplePod (qos : v1.PodQOSClass) (start : option time.Instant)
    (owners : list v1.OwnerReference) : v1.Pod :=
  {| v1.Namespace := "default";
     v1.Name := "sample";
     v1.Annotations := ∅;
     v1.OwnerReferences := owners;
     v1.Spec := {| v1.PriorityClassName := "" |};
     v1.Status := {| v1.QOSClass := qos; v1.StartTime := start |} |}.

Definition replicaSetRef : v1.OwnerReference := {| v1.Kind := "ReplicaSet" |}.
Definition daemonSetRef : v1.OwnerReference := {| v1.Kind := "DaemonSet" |}.
Definition jobRef : v1.OwnerReference := {| v1.Kind := "Job" |}.

(** A daemon-set pod that also lists a hundred replica sets as owners. *)
Definition overriddenPod : v1.Pod :=
  samplePod v1.PodQOSBestEffort (startedAgo 3600)
    (replicate 100 replicaSetRef ++ [daemonSetRef]).

(** The same with one more replica set. *)
Definition outweighedPod : v1.Pod :=
  samplePod v1.PodQOSGuaranteed (startedAgo 3600)
    (replicate 101 replicaSetRef ++ [daemonSetRef]).

Definition jobPod : v1.Pod :=
  samplePod v1.PodQOSGuaranteed (startedAgo 60) [jobRef].

(** Four pods whose final scores tie in pairs. *)
Definition sampleState : State :=
  PodCandidateSetFromPodList
    {| v1.Items := [jobPod;
                    samplePod v1.PodQOSBurstable (startedAgo 7200)
                      [replicaSetRef];
                    jobPod;
                    samplePod v1.PodQOSBurstable (startedAgo 7300)
                      [replicaSetRef]] |}.

(** The scenario of three workloads: [scenarioA] is best-effort, ten days
    old and owned by a replica set; [scenarioB] is the same, two seconds
    old; [scenarioC] is guaranteed, ten days old and owned by a daemon
    set. *)
Definition scenarioA : v1.Pod :=
  samplePod v1.PodQOSBestEffort (startedAgo 864000) [replicaSetRef].
Definition scenarioB : v1.Pod :=
  samplePod v1.PodQOSBestEffort (startedAgo 2) [replicaSetRef].
Definition scenarioC : v1.Pod :=
  samplePod v1.PodQOSGuaranteed (startedAgo 864000) [daemonSetRef].

(** [a] stands before [b] in [l]. *)
Definition precedes {A : Type} (l : list A) (a b : A) : Prop :=
  ∃ l1 l2 l3, l = l1 ++ a :: l2 ++ b :: l3.

(** Ranked order: scores never increase along the list. *)
Definition descending (s : PodCandidateSet) : Prop :=
  StronglySorted (λ a b, Score b <= Score a) s.

(** The reversed prefix of the sort: scores never decrease. *)
Definition ascending (racc : list PodCandidate) : Prop :=
  StronglySorted (λ a b, Score a <= Score b) racc.

(** The stable descending sort as a function on lists: each element is
    inserted, from the right, into the sorted prefix (kept reversed). *)
Fixpoint bubble (x : PodCandidate) (racc : list PodCandidate)
    : list PodCandidate :=
  match racc with
  | [] => [x]
  | y :: racc' =>
      if Score y <? Score x then y :: bubble x racc' else x :: racc
  end.

Definition stableDesc (s : PodCandidateSet) : PodCandidateSet :=
  rev (fold_left (λ racc x, bubble x racc) s []).

(** * Properties *)

(** ** Wrap-around arithmetic *)

Ltac in_range := unfold Int.InRange, Int.min, Int.max in *; lia.

Lemma wrap_id z : Int.InRange z → Int.wrap z = z.
Proof.
  intros H. unfold Int.wrap. rewrite Z.mod_small; in_range.
Qed.

Lemma wrap_range z : Int.InRange (Int.wrap z).
Proof.
  unfold Int.wrap.
  pose proof (Z.mod_pos_bound (z + 2 ^ 63) (2 ^ 64) eq_refl). in_range.
Qed.

Lemma wrap_add_l a b : Int.wrap (Int.wrap a + b) = Int.wrap (a + b).
Proof.
  unfold Int.wrap. f_equal.
  replace ((a + 2 ^ 63) mod 2 ^ 64 - 2 ^ 63 + b + 2 ^ 63)
    with ((a + 2 ^ 63) mod 2 ^ 64 + b) by lia.
  rewrite Z.add_mod_idemp_l by discriminate. f_equal. lia.
Qed.

Lemma sub_as_add a b : Int.sub a b = Int.add a (- b).
Proof. unfold Int.sub, Int.add. f_equal. Qed.

Lemma add_0_InRange a : Int.InRange a → a = Int.add a 0.
Proof. intros H. unfold Int.add. rewrite Z.add_0_r. symmetry. by apply wrap_id. Qed.

Lemma add_add a b c : Int.add (Int.add a b) c = Int.add a (b + c).
Proof. unfold Int.add. rewrite wrap_add_l. f_equal. lia. Qed.

Lemma add_InRange a b : Int.InRange (Int.add a b).
Proof. apply wrap_range. Qed.

(** ** Each pass adds its delta *)

Lemma qosBody_delta pod sc :
  Int.InRange sc → qosBody pod sc = Int.add sc (qosDelta pod).
Proof.
  intros Hsc. unfold qosBody, qosDelta.
  destruct (String.eqb_spec (v1.QOSClass (v1.Status pod)) v1.PodQOSBestEffort)
    as [E1|E1].
  { rewrite decide_True by (by left). done. }
  destruct (String.eqb_spec (v1.QOSClass (v1.Status pod)) v1.PodQOSBurstable)
    as [E2|E2].
  { rewrite decide_True by (by right). done. }
  rewrite decide_False by (intros [?|?]; done). by apply add_0_InRange.
Qed.

Lemma ageBonus_max delta :
  ageBonus delta = math.FloorLog1p (Z.max 1 (delta ÷ time.Second)).
Proof.
  unfold ageBonus. cbv zeta.
  destruct (Z.ltb_spec (delta ÷ time.Second) 1); f_equal; lia.
Qed.

Lemma ageBody_delta now minPodAge pod sc :
  ageBody now minPodAge pod sc = Int.add sc (ageDelta now minPodAge pod).
Proof.
  unfold ageBody, ageDelta.
  destruct (v1.StartTime (v1.Status pod)) as [start|]; [|apply sub_as_add].
  cbv zeta. destruct (Z.ltb_spec (time.Sub now start) minPodAge).
  - rewrite decide_True by done. apply sub_as_add.
  - rewrite decide_False by lia. by rewrite ageBonus_max.
Qed.

Lemma ownerRefStep_delta sc o :
  Int.InRange sc → ownerRefStep sc o = Int.add sc (refDelta o).
Proof.
  intros Hsc. unfold ownerRefStep, refDelta, isReplicaSet, isVetoKind.
  destruct (String.eqb_spec (v1.Kind o) "ReplicaSet") as [E1|E1].
  { by rewrite decide_True. }
  rewrite (decide_False (P := v1.Kind o = "ReplicaSet")) by done.
  destruct (String.eqb_spec (v1.Kind o) "StatefulSet") as [E2|E2].
  { rewrite decide_True by (by left). apply sub_as_add. }
  destruct (String.eqb_spec (v1.Kind o) "DaemonSet") as [E3|E3].
  { rewrite decide_True by (by right). apply sub_as_add. }
  rewrite decide_False by (intros [?|?]; done). by apply add_0_InRange.
Qed.

Lemma refsDelta_cons o refs :
  refsDelta (o :: refs) = refDelta o + refsDelta refs.
Proof.
  unfold refsDelta, refDelta. rewrite !filter_cons.
  destruct (decide (isReplicaSet o)) as [E1|E1];
    destruct (decide (isVetoKind o)) as [E2|E2]; simpl length; try lia.
  exfalso. unfold isReplicaSet in E1. destruct E2 as [E2|E2];
    rewrite E1 in E2; discriminate.
Qed.

Lemma fold_ownerRefStep refs : ∀ sc,
  Int.InRange sc →
  fold_left ownerRefStep refs sc = Int.add sc (refsDelta refs).
Proof.
  induction refs as [|o refs IH]; intros sc Hsc.
  - by apply add_0_InRange.
  - simpl fold_left. rewrite ownerRefStep_delta by done.
    rewrite IH by apply add_InRange.
    by rewrite add_add, refsDelta_cons.
Qed.

Lemma ownerBody_delta pod sc :
  Int.InRange sc → ownerBody pod sc = Int.add sc (ownerDelta pod).
Proof.
  intros Hsc. unfold ownerBody, ownerDelta, replicaSetRefs, vetoRefs.
  cbv zeta. destruct (v1.OwnerReferences pod) as [|o refs] eqn:E.
  - simpl. rewrite sub_as_add. reflexivity.
  - change (length (o :: refs) =? 0)%nat with false. cbv iota.
    rewrite fold_ownerRefStep by done.
    rewrite decide_False by done. unfold refsDelta. f_equal.
Qed.

Lemma critBody_delta pod sc :
  Int.InRange sc → critBody pod sc = Int.add sc (critDelta pod).
Proof.
  intros Hsc. unfold critBody, critDelta, inSystemNamespace,
    hasCriticalPriority, hasCriticalAnnotation. cbv zeta.
  set (s1 := if String.eqb (v1.Namespace pod) "kube-system"
             then Int.sub sc 10000 else sc).
  set (d1 := if decide (v1.Namespace pod = "kube-system")
             then -10000 else 0).
  assert (H1 : s1 = Int.add sc d1 ∧ Int.InRange s1).
  { subst s1 d1. destruct (String.eqb_spec (v1.Namespace pod) "kube-system").
    - rewrite decide_True by done. split; [apply sub_as_add|apply wrap_range].
    - rewrite decide_False by done. split; [by apply add_0_InRange|done]. }
  destruct H1 as [H1 R1].
  set (pc := v1.PriorityClassName (v1.Spec pod)).
  set (s2 := if String.eqb pc "system-cluster-critical"
             then Int.sub s1 10000
             else if String.eqb pc "system-node-critical"
                  then Int.sub s1 10000 else s1).
  set (d2 := if decide (pc = "system-cluster-critical"
                        ∨ pc = "system-node-critical")
             then -10000 else 0).
  assert (H2 : s2 = Int.add s1 d2 ∧ Int.InRange s2).
  { subst s2 d2.
    destruct (String.eqb_spec pc "system-cluster-critical").
    { rewrite decide_True by (by left).
      split; [apply sub_as_add|apply wrap_range]. }
    destruct (String.eqb_spec pc "system-node-critical").
    { rewrite decide_True by (by right).
      split; [apply sub_as_add|apply wrap_range]. }
    rewrite decide_False by (intros [?|?]; done).
    split; [by apply add_0_InRange|done]. }
  destruct H2 as [H2 R2].
  destruct (v1.Annotations pod !! criticalPodAnnotation) as [v|] eqn:E.
  - rewrite decide_True by (by eexists).
    rewrite sub_as_add, H2, H1, !add_add. f_equal. lia.
  - rewrite decide_False by (intros [? ?]; done).
    rewrite H2, H1, !add_add. f_equal. lia.
Qed.

Lemma finalScore_delta now minPodAge pod sc :
  finalScore now minPodAge pod sc =
  Int.add sc (ageDelta now minPodAge pod + qosDelta pod
              + ownerDelta pod + critDelta pod).
Proof.
  unfold finalScore. rewrite ageBody_delta.
  rewrite qosBody_delta by apply add_InRange.
  rewrite ownerBody_delta by apply add_InRange.
  rewrite critBody_delta by apply add_InRange.
  rewrite !add_add. f_equal. lia.
Qed.

(** ** The loop over the candidates *)

Lemma mapM_bind {A B C : Type} (f : A → option B) (g : B → option C) l :
  mapM f l ≫= mapM g = mapM (λ x, f x ≫= g) l.
Proof.
  induction l as [|x l IH]; [done|].
  simpl. destruct (f x) as [y|]; simpl; [|done].
  rewrite <- IH. destruct (mapM f l) as [k|]; simpl.
  - destruct (g y); done.
  - destruct (g y); done.
Qed.

Lemma rescore_compose f g h c :
  rescore f h c ≫= rescore g h = rescore (λ pod sc, g pod (f pod sc)) h c.
Proof.
  unfold rescore. destruct (h !! Pod c) as [pod|] eqn:E; simpl; [|done].
  by rewrite E.
Qed.

Lemma forEach_compose f g st :
  forEach f st ≫= forEach g = forEach (λ pod sc, g pod (f pod sc)) st.
Proof.
  destruct st as [h s]. unfold forEach. simpl.
  rewrite (mapM_ext (rescore (λ pod sc, g pod (f pod sc)) h)
                    (λ c, rescore f h c ≫= rescore g h))
    by (intros c; symmetry; apply rescore_compose).
  rewrite <- mapM_bind. destruct (mapM (rescore f h) s); done.
Qed.

Lemma forEach_Some body st st' :
  forEach body st = Some st' ↔
  heap st' = heap st ∧ Forall2 (rescored body (heap st)) (cands st) (cands st').
Proof.
  unfold forEach. split.
  - intros H. destruct (mapM _ (cands st)) as [s'|] eqn:E; [|done].
    simpl in H. injection H as <-. simpl. split; [done|].
    apply mapM_Some_1 in E. eapply Forall2_impl; [exact E|].
    intros c c' Hc. unfold rescore in Hc.
    destruct (heap st !! Pod c) as [pod|] eqn:Ep; [|done].
    injection Hc as <-. by exists pod.
  - intros [Hh H]. destruct st' as [h' s']. simpl in *. subst h'.
    rewrite (mapM_Some_2 _ _ s'); [done|].
    eapply Forall2_impl; [exact H|].
    intros c c' (pod & Ep & ->). unfold rescore. by rewrite Ep.
Qed.

Lemma forEach_total body st : validState st → is_Some (forEach body st).
Proof.
  intros Hv. unfold forEach.
  destruct (mapM_is_Some_2 (rescore body (heap st)) (cands st)) as [s' Hs'].
  - eapply Forall_impl; [exact Hv|]. intros c Hc. simpl. unfold rescore.
    destruct (lookup_lt_is_Some_2 (heap st) (Pod c) Hc) as [pod ->]. by eexists.
  - rewrite Hs'. by eexists.
Qed.

Lemma forEach_valid body st st' :
  forEach body st = Some st' → validState st ∧ validState st'.
Proof.
  intros [Hh H]%forEach_Some. unfold validState. rewrite Hh.
  induction H as [|c c' s s' (pod & Ep & ->) _ [IH1 IH2]]; [done|].
  apply lookup_lt_Some in Ep. split; constructor; done.
Qed.

Lemma forEach_pods body st st' :
  forEach body st = Some st' → Pod <$> cands st' = Pod <$> cands st.
Proof.
  intros [_ H]%forEach_Some.
  induction H as [|c c' s s' (pod & _ & ->) _ IH]; [done|].
  rewrite !fmap_cons. by rewrite IH.
Qed.

(** The four passes amount to one loop applying [finalScore]. *)
Lemma four_passes now minPodAge st :
  (st1 ← scoreByAge now minPodAge st;
   st2 ← scoreByQOSClass st1;
   st3 ← scoreByOwnerType st2;
   scoreByCriticality st3)
  = forEach (finalScore now minPodAge) st.
Proof.
  unfold scoreByAge, scoreByQOSClass, scoreByOwnerType, scoreByCriticality,
    finalScore.
  rewrite <- (forEach_compose _ critBody).
  rewrite <- (forEach_compose _ ownerBody).
  rewrite <- (forEach_compose _ qosBody).
  destruct (forEach (ageBody now minPodAge) st) as [st1|]; simpl; [|done].
  destruct (forEach qosBody st1) as [st2|]; simpl; [|done].
  done.
Qed.

(** ** The stable sort *)

Section StableSort.
Implicit Types (s pre post racc : list PodCandidate) (x y : PodCandidate).

Local Abbreviation RI := (sort.Reverse PodCandidateSet_Interface).

Lemma lookup_second pre y x post :
  (pre ++ y :: x :: post) !! S (length pre) = Some x.
Proof.
  rewrite (cons_middle y), app_assoc. apply list_lookup_middle.
  rewrite length_app. simpl. lia.
Qed.

Lemma insert_adjacent pre y x post :
  <[length pre := x]> (<[S (length pre) := y]> (pre ++ y :: x :: post))
  = pre ++ x :: y :: post.
Proof. induction pre as [|a pre IH]; simpl; [done|]. by rewrite IH. Qed.

Lemma Swap_adjacent pre y x post :
  Swap (pre ++ y :: x :: post) (S (length pre)) (length pre)
  = Some (pre ++ x :: y :: post).
Proof.
  unfold Swap. rewrite lookup_second. cbn [mbind option_bind].
  rewrite (list_lookup_middle pre (x :: post) y (length pre) eq_refl).
  cbn [mbind option_bind]. by rewrite insert_adjacent.
Qed.

Lemma Reverse_Less_adjacent pre y x post :
  @sort.Less _ RI (pre ++ y :: x :: post) (S (length pre)) (length pre)
  = Some (Score y <? Score x).
Proof.
  simpl. unfold Less.
  rewrite (list_lookup_middle pre (x :: post) y (length pre) eq_refl).
  cbn [mbind option_bind]. by rewrite lookup_second.
Qed.

(** The inner loop moves the element at [j] left, past every
    predecessor of strictly smaller score. *)
Lemma siftDown_bubble racc : ∀ x post,
  sort.siftDown RI 0 (length racc) (rev racc ++ x :: post)
  = Some (rev (bubble x racc) ++ post).
Proof.
  induction racc as [|y racc IH]; intros x post; [done|].
  cbn [length sort.siftDown]. rewrite decide_True by lia.
  cbn [rev]. rewrite <- app_assoc. cbn [app].
  rewrite <- (length_rev racc), Reverse_Less_adjacent.
  cbn [mbind option_bind bubble].
  destruct (Score y <? Score x).
  - change (@sort.Swap _ RI) with Swap. rewrite Swap_adjacent.
    cbn [mbind option_bind]. rewrite length_rev, IH.
    cbn [rev]. by rewrite <- app_assoc.
  - cbn [rev]. by rewrite <- !app_assoc.
Qed.

Lemma bubble_length x racc : length (bubble x racc) = S (length racc).
Proof.
  induction racc as [|y racc IH]; [done|]. simpl.
  destruct (Score y <? Score x); simpl; by rewrite ?IH.
Qed.

Lemma insertionLoop_fold post : ∀ racc,
  sort.insertionLoop RI 0 (length post) (length racc) (rev racc ++ post)
  = Some (rev (fold_left (λ r x, bubble x r) post racc)).
Proof.
  induction post as [|x post IH]; intros racc.
  - simpl. by rewrite app_nil_r.
  - cbn [length sort.insertionLoop fold_left].
    rewrite siftDown_bubble. cbn [mbind option_bind].
    rewrite <- bubble_length with (x := x). apply IH.
Qed.

(** [sort.Stable(sort.Reverse(s))] never panics and yields
    [stableDesc s]. *)
Lemma Stable_Reverse s : sort.Stable RI s = Some (stableDesc s).
Proof.
  unfold sort.Stable, sort.insertionSort, stableDesc.
  destruct s as [|x post]; [done|].
  change (@sort.Len _ RI (x :: post)) with (S (length post)).
  replace (S (length post) - (0 + 1))%nat with (length post) by lia.
  apply (insertionLoop_fold post [x]).
Qed.

Lemma bubble_perm x racc : bubble x racc ≡ₚ x :: racc.
Proof.
  induction racc as [|y racc IH]; [done|]. simpl.
  destruct (Score y <? Score x); [|done].
  rewrite IH. apply Permutation_swap.
Qed.

Lemma fold_bubble_perm post : ∀ racc,
  fold_left (λ r x, bubble x r) post racc ≡ₚ racc ++ post.
Proof.
  induction post as [|x post IH]; intros racc; simpl.
  - by rewrite app_nil_r.
  - rewrite IH, bubble_perm. simpl. apply Permutation_middle.
Qed.

Lemma stableDesc_perm s : stableDesc s ≡ₚ s.
Proof.
  unfold stableDesc. rewrite <- Permutation_rev. apply fold_bubble_perm.
Qed.

Lemma bubble_ascending x racc : ascending racc → ascending (bubble x racc).
Proof.
  unfold ascending. induction 1 as [|y racc Hs IH Hy]; simpl.
  - repeat constructor.
  - destruct (Z.ltb_spec (Score y) (Score x)) as [Hlt|Hge].
    + constructor; [exact IH|]. rewrite bubble_perm.
      constructor; [lia|exact Hy].
    + constructor; [by constructor|].
      constructor; [done|]. eapply Forall_impl; [exact Hy|].
      simpl. intros; lia.
Qed.

Lemma fold_bubble_ascending post : ∀ racc,
  ascending racc → ascending (fold_left (λ r x, bubble x r) post racc).
Proof.
  induction post as [|x post IH]; intros racc H; simpl; [done|].
  by apply IH, bubble_ascending.
Qed.

Lemma rev_ascending racc : ascending racc → descending (rev racc).
Proof.
  unfold ascending, descending. induction 1 as [|y racc Hs IH Hy]; simpl.
  - constructor.
  - apply StronglySorted_app_2; [|done|repeat constructor].
    intros a b Ha ->%list_elem_of_singleton.
    apply list_elem_of_In, in_rev, list_elem_of_In in Ha.
    rewrite Forall_forall in Hy. by apply Hy.
Qed.

Lemma stableDesc_descending s : descending (stableDesc s).
Proof. apply rev_ascending, fold_bubble_ascending. constructor. Qed.

Lemma bubble_filter v x racc :
  filter (λ c, Score c = v) (rev (bubble x racc))
  = filter (λ c, Score c = v) (rev racc) ++ filter (λ c, Score c = v) [x].
Proof.
  induction racc as [|y racc IH]; [done|]. cbn [bubble].
  destruct (Z.ltb_spec (Score y) (Score x)) as [Hlt|Hge];
    [|cbn [rev]; by rewrite !filter_app].
  cbn [rev]. rewrite !filter_app, IH, <- !app_assoc. f_equal.
  rewrite !filter_cons, !filter_nil.
  destruct (decide (Score x = v)); destruct (decide (Score y = v));
    try done. lia.
Qed.

Lemma fold_bubble_filter v post : ∀ racc,
  filter (λ c, Score c = v) (rev (fold_left (λ r x, bubble x r) post racc))
  = filter (λ c, Score c = v) (rev racc ++ post).
Proof.
  induction post as [|x post IH]; intros racc; simpl.
  - by rewrite app_nil_r.
  - rewrite IH, !filter_app, bubble_filter, <- app_assoc. f_equal.
    by rewrite <- filter_app.
Qed.

(** Stability: among the candidates of any one score, the order is the
    input's. *)
Lemma stableDesc_stable v s :
  filter (λ c, Score c = v) (stableDesc s) = filter (λ c, Score c = v) s.
Proof. unfold stableDesc. by rewrite fold_bubble_filter. Qed.
End StableSort.

(** A descending list is determined by its subsequences of equal score:
    whatever algorithm [sort.Stable] runs, its outcome is [stableDesc]. *)
Lemma stable_sort_unique (l : list PodCandidate) : ∀ l',
  descending l → descending l' →
  (∀ v, filter (λ c, Score c = v) l = filter (λ c, Score c = v) l') →
  l = l'.
Proof.
  induction l as [|a l IH]; intros l' Hl Hl' Hf.
  - destruct l' as [|b l']; [done|].
    specialize (Hf (Score b)). by rewrite filter_cons_True in Hf.
  - destruct l' as [|b l'].
    { specialize (Hf (Score a)). by rewrite filter_cons_True in Hf. }
    apply StronglySorted_inv in Hl as [Hl Ha].
    apply StronglySorted_inv in Hl' as [Hl' Hb].
    assert (Hab : Score a = Score b).
    { assert (H1 : a ∈ filter (λ c, Score c = Score a) (b :: l'))
        by (rewrite <- Hf, filter_cons_True by done; left).
      assert (H2 : b ∈ filter (λ c, Score c = Score b) (a :: l))
        by (rewrite Hf, filter_cons_True by done; left).
      apply list_elem_of_filter in H1 as [_ H1].
      apply list_elem_of_filter in H2 as [_ H2].
      rewrite Forall_forall in Ha, Hb.
      apply elem_of_cons in H1 as [->|H1]; [done|].
      apply elem_of_cons in H2 as [->|H2]; [done|].
      specialize (Ha b H2). specialize (Hb a H1). simpl in *. lia. }
    pose proof (Hf (Score a)) as H0.
    rewrite filter_cons_True in H0 by done.
    rewrite (filter_cons_True _ b) in H0 by done.
    injection H0 as -> H0. f_equal. apply IH; [done..|].
    intros v. destruct (decide (Score b = v)) as [<-|Hne]; [done|].
    specialize (Hf v). by rewrite !filter_cons_False in Hf.
Qed.

(** ** Relative order *)

Lemma precedes_filter {A} (P : A → Prop) `{∀ x, Decision (P x)} l a b :
  P a → P b → precedes l a b → precedes (filter P l) a b.
Proof.
  intros Ha Hb (l1 & l2 & l3 & ->).
  exists (filter P l1), (filter P l2), (filter P l3).
  rewrite filter_app, filter_cons_True by done.
  by rewrite filter_app, filter_cons_True.
Qed.

Lemma precedes_filter_inv {A} (P : A → Prop) `{∀ x, Decision (P x)} l a b :
  precedes (filter P l) a b → precedes l a b.
Proof.
  induction l as [|c l IH]; intros (l1 & l2 & l3 & E).
  - by destruct l1.
  - rewrite filter_cons in E. destruct (decide (P c)) as [Hc|Hc].
    + destruct l1 as [|c' l1]; simpl in E; injection E as -> E.
      * assert (Hb : b ∈ filter P l) by (rewrite E; set_solver).
        apply list_elem_of_filter in Hb as [_ Hb].
        apply list_elem_of_split in Hb as (k1 & k2 & ->).
        by exists [], k1, k2.
      * destruct IH as (k1 & k2 & k3 & ->); [by exists l1, l2, l3|].
        by exists (c' :: k1), k2, k3.
    + destruct IH as (k1 & k2 & k3 & ->); [by exists l1, l2, l3|].
      by exists (c :: k1), k2, k3.
Qed.

(** ** The selection loop *)

Lemma firstNonNegative_None s :
  firstNonNegative s = None ↔ Forall (λ c, Score c < 0) s.
Proof.
  induction s as [|c s IH]; simpl; [done|].
  destruct (Z.ltb_spec (Score c) 0).
  - rewrite IH. split; [by constructor|by inversion 1].
  - split; [done|]. inversion 1; lia.
Qed.

Lemma firstNonNegative_Some s p :
  firstNonNegative s = Some p ↔
  ∃ l1 c l2, s = l1 ++ c :: l2 ∧ Forall (λ c, Score c < 0) l1
             ∧ 0 <= Score c ∧ Pod c = p.
Proof.
  induction s as [|c s IH]; simpl.
  - split; [done|]. intros (l1 & ? & ? & E & _). by destruct l1.
  - destruct (Z.ltb_spec (Score c) 0).
    + rewrite IH. split.
      * intros (l1 & c' & l2 & -> & ? & ? & ?).
        exists (c :: l1), c', l2. repeat split; try done. by constructor.
      * intros (l1 & c' & l2 & E & Hl1 & ? & ?).
        destruct l1 as [|c0 l1]; simpl in E; injection E as -> ->; [lia|].
        inversion Hl1; subst. by exists l1, c', l2.
    + split.
      * intros [= <-]. by exists [], c, s.
      * intros (l1 & c' & l2 & E & Hl1 & ? & ?).
        destruct l1 as [|c0 l1]; simpl in E; injection E as -> ->.
        -- by f_equal.
        -- inversion Hl1; subst. lia.
Qed.

(** [SelectPodForEviction] in one piece: rescore with [finalScore], rank
    with [stableDesc], scan. *)
Lemma Select_unfold now minPodAge st :
  SelectPodForEviction now minPodAge st =
  st4 ← forEach (finalScore now minPodAge) st;
  Some (firstNonNegative (stableDesc (cands st4)),
        {| heap := heap st4; cands := stableDesc (cands st4) |}).
Proof.
  rewrite <- four_passes. unfold SelectPodForEviction.
  destruct (scoreByAge now minPodAge st) as [st1|]; simpl; [|done].
  destruct (scoreByQOSClass st1) as [st2|]; simpl; [|done].
  destruct (scoreByOwnerType st2) as [st3|]; simpl; [|done].
  destruct (scoreByCriticality st3) as [st4|]; simpl; [|done].
  by rewrite Stable_Reverse.
Qed.

(** ** The table lookup *)

Lemma countLe_spec (y : Z) (ts : list Z) :
  let k := math.countLe y ts in
  0 <= k <= Z.of_nat (length ts)
  ∧ (∀ i t, ts !! i = Some t → Z.of_nat i < k → t <= y)
  ∧ (∀ t, ts !! Z.to_nat k = Some t → y < t).
Proof.
  induction ts as [|t0 ts IH]; cbn [math.countLe length].
  - repeat split; first [done|lia].
  - destruct IH as (IH1 & IH2 & IH3).
    destruct (Z.leb_spec t0 y) as [Hle|Hgt]; cbv zeta.
    + repeat split; try lia.
      * intros [|i] t Hi Hlt; [by injection Hi as ->|].
        apply (IH2 i t Hi). lia.
      * intros t. replace (Z.to_nat (1 + math.countLe y ts))
          with (S (Z.to_nat (math.countLe y ts))) by lia.
        apply IH3.
    + repeat split; try lia. intros t [= ->]. exact Hgt.
Qed.

Lemma countLe_mono (ts : list Z) (y1 y2 : Z) :
  y1 <= y2 → math.countLe y1 ts <= math.countLe y2 ts.
Proof.
  intros Hy. induction ts as [|t ts IH]; simpl; [done|].
  destruct (Z.leb_spec t y1), (Z.leb_spec t y2); try lia.
  destruct (countLe_spec y2 ts) as [? _]. simpl in *. lia.
Qed.

Lemma FloorLog1p_range (x : Z) : 0 <= math.FloorLog1p x <= 44.
Proof.
  unfold math.FloorLog1p.
  destruct (countLe_spec (1 + x) math.expCeil) as [H _]. exact H.
Qed.

Lemma FloorLog1p_mono (x1 x2 : Z) :
  x1 <= x2 → math.FloorLog1p x1 <= math.FloorLog1p x2.
Proof. intros H. apply countLe_mono. lia. Qed.

(** ** [math.FloorLog1p] is the floor of the real logarithm *)

Module LogSpec.
Import Stdlib.Reals.Reals Stdlib.micromega.Lra.
Import Enclosure RealSpec.
Local Open Scope R_scope.

Lemma scale_pos : 0 < IZR scale.
Proof. apply IZR_lt. reflexivity. Qed.

Lemma sq_step_real (S e l u l' u' : R) :
  0 < S → 0 < e → 0 <= l → l <= S * e → S * e < u →
  l' * S <= l * l → u * u < u' * S →
  l' <= S * (e * e) < u'.
Proof.
  intros HS He Hl Hlo Hup H1 H2. split.
  - apply Rmult_le_reg_r with S; [exact HS|].
    apply Rle_trans with (l * l); [exact H1|]. nra.
  - apply Rmult_lt_reg_r with S; [exact HS|].
    apply Rle_lt_trans with (u * u); [|exact H2]. nra.
Qed.

Lemma sq_step (l u : Z) (x : R) :
  (0 <= l)%Z →
  IZR l <= IZR scale * exp x < IZR u →
  IZR (sqLo l) <= IZR scale * exp (x + x) < IZR (sqUp u).
Proof.
  intros Hl [Hlo Hup]. rewrite exp_plus.
  apply sq_step_real with (l := IZR l) (u := IZR u); try done.
  - apply scale_pos.
  - apply exp_pos.
  - by apply IZR_le.
  - rewrite <- !mult_IZR. apply IZR_le. unfold sqLo.
    rewrite Z.mul_comm. apply Z.mul_div_le. reflexivity.
  - rewrite <- !mult_IZR. apply IZR_lt. unfold sqUp.
    pose proof (Z.mod_pos_bound (u * u) scale eq_refl).
    pose proof (Z.div_mod (u * u) scale ltac:(discriminate)). lia.
Qed.

Lemma sqLo_nonneg l : (0 <= l)%Z → (0 <= sqLo l)%Z.
Proof. intros Hl. unfold sqLo. apply Z.div_pos; [nia|reflexivity]. Qed.

Lemma iterSq_bounds n : ∀ (l u : Z) (x : R),
  (0 <= l)%Z →
  IZR l <= IZR scale * exp x < IZR u →
  IZR (iterSq sqLo n l) <= IZR scale * exp (2 ^ n * x) < IZR (iterSq sqUp n u).
Proof.
  induction n as [|n IH]; intros l u x Hl H; simpl.
  - rewrite Rmult_1_l. exact H.
  - replace (2 * 2 ^ n * x) with (2 ^ n * (x + x)) by ring.
    apply IH; [by apply sqLo_nonneg|by apply sq_step].
Qed.

Lemma pow2_100 : 2 ^ 100 = IZR (2 ^ 100).
Proof.
  change (2 ^ 100)%Z with (2 ^ Z.of_nat 100)%Z.
  rewrite <- pow_IZR. reflexivity.
Qed.

Lemma x0_bounds_real (S p x e lo up : R) :
  1 < p → p * x = 1 → S = p * p → lo = S + p →
  S * p <= up * (p - 1) →
  1 + x <= e → e * (1 - x) < 1 →
  lo <= S * e < up.
Proof.
  intros Hp Hpx -> -> Hup H1 H3.
  assert (Hx : 0 < x).
  { apply Rmult_lt_reg_l with p; [lra|]. rewrite Hpx. lra. }
  assert (He : e * (p - 1) < p).
  { replace (e * (p - 1)) with (p * (e * (1 - x)))
      by (transitivity (e * (p - p * x)); [ring|rewrite Hpx; ring]).
    rewrite <- (Rmult_1_r p) at 2. apply Rmult_lt_compat_l; lra. }
  split.
  { replace (p * p + p) with (p * p * (1 + x))
      by (transitivity (p * p + p * (p * x)); [ring|rewrite Hpx; ring]).
    apply Rmult_le_compat_l; [nra|exact H1]. }
  apply Rmult_lt_reg_r with (p - 1); [lra|].
  apply Rlt_le_trans with (p * p * p); [|exact Hup].
  replace (p * p * e * (p - 1)) with (p * p * (e * (p - 1))) by ring.
  apply Rmult_lt_compat_l; [nra|exact He].
Qed.

Lemma x0_bounds : IZR lo0 <= IZR scale * exp x0 < IZR up0.
Proof.
  apply x0_bounds_real with (p := 2 ^ 100) (x := x0).
  - apply Rlt_pow_R1; [lra|lia].
  - unfold x0. field.
  - rewrite pow2_100, <- mult_IZR. reflexivity.
  - rewrite pow2_100, <- plus_IZR. reflexivity.
  - rewrite pow2_100, <- minus_IZR, <- !mult_IZR. apply IZR_le.
    vm_compute. discriminate.
  - apply exp_ineq1_le.
  - assert (Hx : 0 < x0).
    { apply Rinv_0_lt_compat, pow_lt. lra. }
    assert (H2 : 1 - x0 < exp (- x0)).
    { replace (1 - x0) with (1 + - x0) by ring. apply exp_ineq1. lra. }
    rewrite exp_Ropp in H2. pose proof (exp_pos x0) as He.
    apply Rmult_lt_compat_l with (r := exp x0) in H2; [|exact He].
    rewrite Rinv_r in H2; lra.
Qed.

Lemma e_bounds : IZR eLo <= IZR scale * exp 1 < IZR eUp.
Proof.
  assert (H1 : 2 ^ 100 * x0 = 1) by (unfold x0; field).
  rewrite <- H1.
  replace eLo with (iterSq sqLo 100 lo0) by (vm_compute; reflexivity).
  replace eUp with (iterSq sqUp 100 up0) by (vm_compute; reflexivity).
  apply iterSq_bounds; [vm_compute; discriminate|apply x0_bounds].
Qed.

Lemma exp_INR (k : nat) : exp (INR k) = exp 1 ^ k.
Proof.
  induction k as [|k IH].
  - simpl. apply exp_0.
  - rewrite S_INR, exp_plus, IH. simpl. ring.
Qed.

Lemma pow_enclose (S e lo up t1 t : R) (k : nat) :
  0 < S → 0 <= lo → lo <= S * e → S * e < up → 0 < e →
  t1 * S ^ k < lo ^ k → up ^ k < t * S ^ k →
  t1 < e ^ k < t.
Proof.
  intros HS Hlo H1 H2 He Ht1 Ht.
  assert (HSk : 0 < S ^ k) by (apply pow_lt; exact HS).
  assert (Hlo' : lo ^ k <= (S * e) ^ k) by (apply pow_incr; lra).
  assert (Hup' : (S * e) ^ k <= up ^ k) by (apply pow_incr; nra).
  rewrite Rpow_mult_distr in Hlo', Hup'.
  split; apply Rmult_lt_reg_r with (S ^ k); try exact HSk; lra.
Qed.

Lemma checkTable_sound ts : ∀ (k i : nat) (t : Z),
  checkTable (eLo ^ Z.of_nat k) (eUp ^ Z.of_nat k) (scale ^ Z.of_nat k) ts
    = true →
  ts !! i = Some t →
  IZR (t - 1) < exp (INR (k + i)) < IZR t.
Proof.
  induction ts as [|t0 ts IH]; intros k i t Hc Hi; [done|].
  cbn [checkTable] in Hc. apply andb_prop in Hc as [Hc Hrest].
  apply andb_prop in Hc as [Hlo Hup].
  destruct i as [|i].
  - injection Hi as ->. rewrite Nat.add_0_r, exp_INR.
    apply Z.ltb_lt, IZR_lt in Hlo. apply Z.ltb_lt, IZR_lt in Hup.
    rewrite mult_IZR, <- !pow_IZR in Hlo, Hup.
    destruct e_bounds as [He1 He2].
    apply pow_enclose with (S := IZR scale) (lo := IZR eLo) (up := IZR eUp);
      try done.
    + apply scale_pos.
    + apply IZR_le. vm_compute. discriminate.
    + apply exp_pos.
  - replace (k + S i)%nat with (S k + i)%nat by lia.
    apply IH; [|exact Hi].
    rewrite Nat2Z.inj_succ, !Z.pow_succ_r by lia.
    rewrite (Z.mul_comm eLo), (Z.mul_comm eUp), (Z.mul_comm scale).
    exact Hrest.
Qed.

Lemma expCeil_checked : checkTable eLo eUp scale math.expCeil = true.
Proof. vm_compute. reflexivity. Qed.

(** Every entry of the table is the least integer above its power of e. *)
Lemma expCeil_spec (i : nat) (t : Z) :
  math.expCeil !! i = Some t → IZR (t - 1) < exp (INR (S i)) < IZR t.
Proof.
  apply (checkTable_sound math.expCeil 1 i t).
  change (Z.of_nat 1) with 1%Z. rewrite !Z.pow_1_r. apply expCeil_checked.
Qed.

(** On every argument an [int64] can hold, [math.FloorLog1p x] is the
    integer [k] with [k <= ln (1 + x) < k + 1]. *)
Lemma FloorLog1p_spec (x : Z) :
  (0 <= x < 2 ^ 63)%Z → RealSpec.IsFloorLog1p x (math.FloorLog1p x).
Proof.
  intros Hx. unfold RealSpec.IsFloorLog1p, math.FloorLog1p.
  destruct (countLe_spec (1 + x) math.expCeil) as (Hk & Hbelow & Habove).
  set (k := math.countLe (1 + x) math.expCeil) in *.
  assert (Hpos : 0 < 1 + IZR x).
  { apply Rlt_le_trans with 1; [lra|].
    assert (0 <= IZR x) by (apply IZR_le; lia). lra. }
  rewrite <- (plus_IZR 1 x) in *.
  assert (Hkn : IZR k = INR (Z.to_nat k)).
  { rewrite INR_IZR_INZ. f_equal. lia. }
  split.
  - destruct (Z.to_nat k) as [|n] eqn:En.
    + rewrite Hkn. simpl. rewrite <- ln_1.
      destruct (Z.eq_dec x 0) as [->|Hne]; [right; reflexivity|].
      left. apply ln_increasing; [lra|]. apply IZR_lt. lia.
    + destruct (lookup_lt_is_Some_2 math.expCeil n) as [t Ht]; [lia|].
      pose proof (Hbelow n t Ht ltac:(lia)) as Hle.
      destruct (expCeil_spec n t Ht) as [_ Hexp].
      rewrite Hkn. rewrite <- (ln_exp (INR (S n))). left.
      apply ln_increasing; [apply exp_pos|].
      apply Rlt_le_trans with (IZR t); [exact Hexp|by apply IZR_le].
  - assert (Hlt : (Z.to_nat k < length math.expCeil)%nat).
    { destruct (decide (Z.to_nat k < length math.expCeil)%nat); [done|].
      exfalso.
      assert (Hlast : math.expCeil !! 43%nat = Some 12851600114359308276%Z)
        by reflexivity.
      pose proof (Hbelow 43%nat _ Hlast) as Hle.
      change (length math.expCeil) with 44%nat in *. lia. }
    destruct (lookup_lt_is_Some_2 math.expCeil _ Hlt) as [t Ht].
    pose proof (Habove t Ht) as Hgt.
    destruct (expCeil_spec _ t Ht) as [Hexp _].
    replace (IZR k + 1) with (INR (S (Z.to_nat k)))
      by (rewrite S_INR, Hkn; reflexivity).
    rewrite <- (ln_exp (INR (S (Z.to_nat k)))).
    apply ln_increasing; [exact Hpos|].
    apply Rle_lt_trans with (IZR (t - 1)); [apply IZR_le; lia|exact Hexp].
Qed.
End LogSpec.

(** ** Candidate sets and passes as a whole *)

Lemma fresh_valid l : validState (PodCandidateSetFromPodList l).
Proof.
  unfold validState. simpl. apply Forall_forall. intros c Hc.
  apply elem_of_lookup_imap_1 in Hc as (i & pod & -> & Hi).
  simpl. by apply lookup_lt_Some in Hi.
Qed.

(** After a loop over a fresh candidate set, a candidate's score is the
    body applied to its pod and 0. *)
Lemma fresh_scored body l st' c' :
  forEach body (PodCandidateSetFromPodList l) = Some st' →
  c' ∈ cands st' →
  ∃ pod, v1.Items l !! Pod c' = Some pod ∧ Score c' = body pod 0.
Proof.
  intros [_ H]%forEach_Some [j Hj]%list_elem_of_lookup.
  destruct (Forall2_lookup_r _ _ _ _ _ H Hj) as (c & Hc & pod & Ep & ->).
  simpl in *. apply list_lookup_imap_Some in Hc as (y & Hy & ->).
  simpl in *. by exists pod.
Qed.

Lemma pass_adds (R : Z → Prop) body delta st :
  (∀ pod sc, R sc → body pod sc = Int.add sc (delta pod)) →
  validState st →
  Forall (λ c, R (Score c)) (cands st) →
  ∃ st', forEach body st = Some st'
         ∧ framed st st'
         ∧ Forall2 (adds delta (heap st)) (cands st) (cands st').
Proof.
  intros Hbody Hv Hr. destruct (forEach_total body st Hv) as [st' Hst'].
  exists st'. split; [done|]. split.
  - split; [by apply forEach_Some in Hst' as [? _]|by eapply forEach_pods].
  - apply forEach_Some in Hst' as [_ H].
    induction H as [|c c' s s' (pod & Ep & ->) _ IH]; [done|].
    apply Forall_cons in Hr as [Hc Hr]. constructor; [|by apply IH].
    exists pod. simpl. by rewrite Hbody.
Qed.

Lemma Select_result now minPodAge st :
  validState st →
  ∃ scored,
    forEach (finalScore now minPodAge) st = Some scored
    ∧ SelectPodForEviction now minPodAge st =
      Some (firstNonNegative (stableDesc (cands scored)),
            {| heap := heap scored; cands := stableDesc (cands scored) |}).
Proof.
  intros Hv.
  destruct (forEach_total (finalScore now minPodAge) st Hv) as [scored Hs].
  exists scored. split; [done|]. by rewrite Select_unfold, Hs.
Qed.

(** A candidate of a fresh set whose final score is negative is never
    the one selected. *)
Lemma negative_never_selected l now minPodAge i pod :
  v1.Items l !! i = Some pod →
  finalScore now minPodAge pod 0 < 0 →
  ∃ res st',
    SelectPodForEviction now minPodAge (PodCandidateSetFromPodList l)
      = Some (res, st')
    ∧ res ≠ Some i
    ∧ ∀ c, c ∈ cands st' → Pod c = i → Score c < 0.
Proof.
  intros Hi Hneg.
  destruct (Select_result now minPodAge _ (fresh_valid l))
    as (scored & Hs & Hsel).
  eexists _, _. split; [exact Hsel|]. simpl.
  assert (Hout : ∀ c, c ∈ stableDesc (cands scored) → Pod c = i → Score c < 0).
  { intros c Hc Hp. rewrite stableDesc_perm in Hc.
    destruct (fresh_scored _ _ _ _ Hs Hc) as (pod' & Hpod' & ->).
    rewrite Hp, Hi in Hpod'. by injection Hpod' as <-. }
  split; [|exact Hout].
  intros (l1 & c & l2 & E & _ & Hge & Hp)%firstNonNegative_Some.
  specialize (Hout c). rewrite E in Hout.
  assert (Score c < 0); [|lia]. apply Hout; [set_solver|done].
Qed.

(** ** The claims *)

(** C2. For every candidate set (of valid pod pointers) and every
    [minPodAge], [SelectPodForEviction] runs the four scoring passes in
    turn, leaves the candidates ranked by descending final score, and
    returns the pod of the first ranked candidate whose score is [>= 0];
    it returns [None] exactly when every final score is negative, and
    never panics. *)
Theorem SelectPodForEviction_spec now minPodAge st :
  validState st →
  ∃ st1 st2 st3 st4 res st',
    scoreByAge now minPodAge st = Some st1
    ∧ scoreByQOSClass st1 = Some st2
    ∧ scoreByOwnerType st2 = Some st3
    ∧ scoreByCriticality st3 = Some st4
    ∧ SelectPodForEviction now minPodAge st = Some (res, st')
    ∧ cands st' ≡ₚ cands st4
    ∧ descending (cands st')
    ∧ (res = None ↔ Forall (λ c, Score c < 0) (cands st4))
    ∧ (∀ p, res = Some p →
         ∃ l1 c l2, cands st' = l1 ++ c :: l2
                    ∧ Forall (λ c, Score c < 0) l1
                    ∧ 0 <= Score c ∧ Pod c = p).
Proof.
  intros Hv.
  destruct (forEach_total (ageBody now minPodAge) st Hv) as [st1 H1].
  pose proof (forEach_valid _ _ _ H1) as [_ Hv1].
  destruct (forEach_total qosBody st1 Hv1) as [st2 H2].
  pose proof (forEach_valid _ _ _ H2) as [_ Hv2].
  destruct (forEach_total ownerBody st2 Hv2) as [st3 H3].
  pose proof (forEach_valid _ _ _ H3) as [_ Hv3].
  destruct (forEach_total critBody st3 Hv3) as [st4 H4].
  exists st1, st2, st3, st4, (firstNonNegative (stableDesc (cands st4))),
    {| heap := heap st4; cands := stableDesc (cands st4) |}.
  repeat split; try done.
  - unfold SelectPodForEviction, scoreByAge, scoreByQOSClass,
      scoreByOwnerType, scoreByCriticality.
    rewrite H1. simpl. rewrite H2. simpl. rewrite H3. simpl.
    rewrite H4. simpl. by rewrite Stable_Reverse.
  - apply stableDesc_perm.
  - apply stableDesc_descending.
  - intros Hn%firstNonNegative_None. simpl.
    by rewrite <- (stableDesc_perm (cands st4)).
  - intros Hn. apply firstNonNegative_None.
    by rewrite (stableDesc_perm (cands st4)).
  - intros p Hp. by apply firstNonNegative_Some.
Qed.

Lemma SelectPodForEviction_spec_witness :
  validState sampleState
  ∧ ∃ st1 st2 st3 st4 res st',
      scoreByAge sampleNow 0 sampleState = Some st1
      ∧ scoreByQOSClass st1 = Some st2
      ∧ scoreByOwnerType st2 = Some st3
      ∧ scoreByCriticality st3 = Some st4
      ∧ SelectPodForEviction sampleNow 0 sampleState = Some (res, st')
      ∧ cands st' ≡ₚ cands st4
      ∧ descending (cands st')
      ∧ (res = None ↔ Forall (λ c, Score c < 0) (cands st4))
      ∧ (∀ p, res = Some p →
           ∃ l1 c l2, cands st' = l1 ++ c :: l2
                      ∧ Forall (λ c, Score c < 0) l1
                      ∧ 0 <= Score c ∧ Pod c = p).
Proof.
  split; [apply fresh_valid|].
  apply (SelectPodForEviction_spec sampleNow 0 sampleState), fresh_valid.
Defined.

(** C6. The ranking is stable: among the candidates of any one final
    score the ranked order is the input order, so that of two candidates
    with equal final score the one that stands first in the input stands
    first in the ranking. *)
Theorem SelectPodForEviction_stable now minPodAge st :
  validState st →
  ∃ scored res st',
    Forall2 (rescored (finalScore now minPodAge) (heap st))
            (cands st) (cands scored)
    ∧ SelectPodForEviction now minPodAge st = Some (res, st')
    ∧ (∀ v, filter (λ c, Score c = v) (cands st')
            = filter (λ c, Score c = v) (cands scored))
    ∧ (∀ a b, Score a = Score b →
              precedes (cands scored) a b → precedes (cands st') a b).
Proof.
  intros Hv. destruct (Select_result now minPodAge st Hv) as (scored & Hs & Hsel).
  exists scored, (firstNonNegative (stableDesc (cands scored))),
    {| heap := heap scored; cands := stableDesc (cands scored) |}.
  split; [by apply forEach_Some in Hs as [_ ?]|].
  split; [done|]. simpl. split.
  - intros v. apply stableDesc_stable.
  - intros a b Hab Hpre.
    apply (precedes_filter_inv (λ c, Score c = Score a)).
    rewrite stableDesc_stable. by apply precedes_filter.
Qed.

Lemma SelectPodForEviction_stable_witness :
  validState sampleState
  ∧ ∃ scored res st',
      Forall2 (rescored (finalScore sampleNow 0) (heap sampleState))
              (cands sampleState) (cands scored)
      ∧ SelectPodForEviction sampleNow 0 sampleState = Some (res, st')
      ∧ (∀ v, filter (λ c, Score c = v) (cands st')
              = filter (λ c, Score c = v) (cands scored))
      ∧ (∀ a b, Score a = Score b →
                precedes (cands scored) a b → precedes (cands st') a b).
Proof.
  split; [apply fresh_valid|].
  apply (SelectPodForEviction_stable sampleNow 0 sampleState), fresh_valid.
Defined.

(** *** Ranges of the deltas *)

Lemma qosDelta_range pod : 0 <= qosDelta pod <= 100.
Proof. unfold qosDelta. case_decide; lia. Qed.

Lemma ageDelta_range now minPodAge pod :
  -10000 <= ageDelta now minPodAge pod <= 44.
Proof.
  unfold ageDelta.
  destruct (v1.StartTime (v1.Status pod)) as [start|]; [|lia].
  case_decide; [lia|].
  pose proof (FloorLog1p_range
                (Z.max 1 (time.Sub now start ÷ time.Second))). lia.
Qed.

Lemma ageDelta_veto now minPodAge pod :
  ageVeto now minPodAge pod → ageDelta now minPodAge pod = -10000.
Proof.
  unfold ageVeto, ageDelta. destruct (v1.StartTime (v1.Status pod)); [|done].
  intros H. by rewrite decide_True.
Qed.

Lemma critDelta_range pod : -30000 <= critDelta pod <= 0.
Proof. unfold critDelta. repeat case_decide; lia. Qed.

Lemma critDelta_veto pod : critVeto pod → critDelta pod <= -10000.
Proof.
  unfold critVeto, critDelta. intros [H|[H|H]]; repeat case_decide; done || lia.
Qed.

Lemma vetoRefs_range pod :
  0 <= vetoRefs pod <= Z.of_nat (length (v1.OwnerReferences pod)).
Proof.
  unfold vetoRefs.
  pose proof (length_filter isVetoKind (v1.OwnerReferences pod)). lia.
Qed.

Lemma vetoRefs_veto pod : ownerVeto pod → 1 <= vetoRefs pod.
Proof.
  unfold ownerVeto, vetoRefs.
  induction 1 as [o refs Ho|o refs _ IH]; rewrite filter_cons.
  - rewrite decide_True by done. simpl length. lia.
  - case_decide; simpl length; lia.
Qed.

Lemma ownerDelta_sign pod :
  ownerDelta pod < 0 ↔
  v1.OwnerReferences pod = [] ∨ replicaSetRefs pod < 100 * vetoRefs pod.
Proof.
  unfold ownerDelta, replicaSetRefs, vetoRefs.
  destruct (v1.OwnerReferences pod) as [|o refs] eqn:E.
  - rewrite decide_True by done. simpl. split; [by left|lia].
  - rewrite decide_False by done. split; [right; lia|].
    intros [?|?]; [done|lia].
Qed.

(** C1, as the code has it.  A candidate of a fresh candidate set that
    receives at least one veto of -10000 (missing or too recent start
    time, a stateful-set or daemon-set owner, any criticality condition)
    and has at most 98 replica-set owner references (and fewer than 2^48
    owner references, so that the 64-bit score cannot wrap) ends with a
    strictly negative final score, and [SelectPodForEviction] never
    returns it. *)
Theorem veto_keeps_candidate_out l now minPodAge i pod :
  v1.Items l !! i = Some pod →
  vetoed now minPodAge pod →
  replicaSetRefs pod <= 98 →
  Z.of_nat (length (v1.OwnerReferences pod)) < 2 ^ 48 →
  finalScore now minPodAge pod 0 < 0
  ∧ ∃ res st',
      SelectPodForEviction now minPodAge (PodCandidateSetFromPodList l)
        = Some (res, st')
      ∧ res ≠ Some i
      ∧ ∀ c, c ∈ cands st' → Pod c = i → Score c < 0.
Proof.
  intros Hi Hveto Hr Hlen.
  assert (Hneg : finalScore now minPodAge pod 0 < 0).
  { rewrite finalScore_delta. unfold Int.add.
    pose proof (qosDelta_range pod).
    pose proof (ageDelta_range now minPodAge pod).
    pose proof (critDelta_range pod).
    pose proof (vetoRefs_range pod).
    assert (ownerDelta pod <= 100 * replicaSetRefs pod - 10000 * vetoRefs pod
            ∧ -1000 + - 10000 * vetoRefs pod <= ownerDelta pod) as [? ?].
    { unfold ownerDelta, replicaSetRefs. case_decide; lia. }
    assert (ageDelta now minPodAge pod + qosDelta pod + ownerDelta pod
            + critDelta pod < 0).
    { destruct Hveto as [Ha|[Ho|Hc]].
      - apply ageDelta_veto in Ha. lia.
      - apply vetoRefs_veto in Ho. lia.
      - apply critDelta_veto in Hc. lia. }
    rewrite wrap_id; [lia|in_range]. }
  split; [exact Hneg|]. by apply negative_never_selected with pod.
Qed.

Lemma veto_keeps_candidate_out_witness :
  (vetoed sampleNow 60 (samplePod v1.PodQOSBestEffort None [replicaSetRef]))
  ∧ finalScore sampleNow 60
      (samplePod v1.PodQOSBestEffort None [replicaSetRef]) 0 < 0
  ∧ ∃ res st',
      SelectPodForEviction sampleNow 60
        (PodCandidateSetFromPodList
           {| v1.Items := [samplePod v1.PodQOSBestEffort None
                             [replicaSetRef]] |})
        = Some (res, st')
      ∧ res ≠ Some 0%nat
      ∧ ∀ c, c ∈ cands st' → Pod c = 0%nat → Score c < 0.
Proof.
  assert (Hv : vetoed sampleNow 60
                 (samplePod v1.PodQOSBestEffort None [replicaSetRef]))
    by (by left).
  split; [exact Hv|].
  apply (veto_keeps_candidate_out
           {| v1.Items := [samplePod v1.PodQOSBestEffort None
                             [replicaSetRef]] |}
           sampleNow 60 0%nat
           (samplePod v1.PodQOSBestEffort None [replicaSetRef])).
  - reflexivity.
  - exact Hv.
  - vm_compute. discriminate.
  - vm_compute. reflexivity.
Defined.

(** C1, as stated, fails: [overriddenPod] is vetoed by its daemon-set
    owner, yet its hundred replica-set references bring the final score
    back to 108 and it is the pod selected. *)
Lemma veto_overridden :
  vetoed sampleNow 0 overriddenPod
  ∧ finalScore sampleNow 0 overriddenPod 0 = 108
  ∧ SelectPodForEviction sampleNow 0
      (PodCandidateSetFromPodList {| v1.Items := [overriddenPod] |})
    = Some (Some 0%nat,
            {| heap := [overriddenPod];
               cands := [{| Pod := 0; Score := 108 |}] |}).
Proof.
  split; [|split; vm_compute; reflexivity].
  right. left.
  change (Exists isVetoKind (replicate 100 replicaSetRef ++ [daemonSetRef])).
  apply Exists_app. right. constructor. by right.
Qed.

(** *** The owner-type pass *)

Lemma ownerRefStep_unrecognized sc o :
  unrecognized o → ownerRefStep sc o = sc.
Proof.
  unfold unrecognized, isReplicaSet, isVetoKind, ownerRefStep.
  intros [H1 H2].
  destruct (String.eqb_spec (v1.Kind o) "ReplicaSet"); [done|].
  destruct (String.eqb_spec (v1.Kind o) "StatefulSet"); [tauto|].
  destruct (String.eqb_spec (v1.Kind o) "DaemonSet"); [tauto|done].
Qed.

Lemma fold_unrecognized refs : ∀ sc,
  Forall unrecognized refs → fold_left ownerRefStep refs sc = sc.
Proof.
  induction refs as [|o refs IH]; intros sc Hall; [done|].
  apply Forall_cons in Hall as [Ho Hall].
  simpl. rewrite ownerRefStep_unrecognized by done. by apply IH.
Qed.

Lemma ownerBody_unrecognized pod sc :
  v1.OwnerReferences pod ≠ [] →
  Forall unrecognized (v1.OwnerReferences pod) →
  ownerBody pod sc = sc.
Proof.
  unfold ownerBody. cbv zeta. intros Hne Hall.
  destruct (v1.OwnerReferences pod) as [|o refs]; [done|].
  change (length (o :: refs) =? 0)%nat with false. cbv iota.
  by apply fold_unrecognized.
Qed.

(** C9. An owner reference whose kind is none of the three recognized
    ones leaves the score as it is: a pod owned only by such references
    (a Job's pod, say) is neither rewarded nor vetoed by the owner-type
    pass, and it is selected from a candidate set of its own as soon as
    its other three contributions are not negative. *)
Theorem unrecognized_owner_is_neutral pod :
  v1.OwnerReferences pod ≠ [] →
  Forall unrecognized (v1.OwnerReferences pod) →
  (∀ o sc, o ∈ v1.OwnerReferences pod → ownerRefStep sc o = sc)
  ∧ (∀ sc, ownerBody pod sc = sc)
  ∧ (∀ now minPodAge,
       0 <= critBody pod (qosBody pod (ageBody now minPodAge pod 0)) →
       ∃ st',
         SelectPodForEviction now minPodAge
           (PodCandidateSetFromPodList {| v1.Items := [pod] |})
         = Some (Some 0%nat, st')).
Proof.
  intros Hne Hall. split; [|split].
  - intros o sc Ho. apply ownerRefStep_unrecognized.
    rewrite Forall_forall in Hall. by apply Hall.
  - intros sc. by apply ownerBody_unrecognized.
  - intros now minPodAge Hge. rewrite Select_unfold.
    unfold forEach, rescore, finalScore. simpl.
    rewrite ownerBody_unrecognized by done.
    destruct (Z.ltb_spec
      (critBody pod (qosBody pod (ageBody now minPodAge pod 0))) 0);
      [lia|]. by eexists.
Qed.

Lemma unrecognized_owner_is_neutral_witness :
  (∀ o sc, o ∈ v1.OwnerReferences jobPod → ownerRefStep sc o = sc)
  ∧ (∀ sc, ownerBody jobPod sc = sc)
  ∧ (∀ now minPodAge,
       0 <= critBody jobPod (qosBody jobPod (ageBody now minPodAge jobPod 0)) →
       ∃ st',
         SelectPodForEviction now minPodAge
           (PodCandidateSetFromPodList {| v1.Items := [jobPod] |})
         = Some (Some 0%nat, st')).
Proof.
  apply (unrecognized_owner_is_neutral jobPod).
  - discriminate.
  - repeat constructor; intros H; vm_compute in H; try discriminate.
    destruct H; discriminate.
Defined.

(** C5, as the code has it.  The owner-type pass adds to every candidate
    -1000 when its pod has no owner reference, +100 for each replica-set
    reference and -10000 for each stateful-set or daemon-set reference,
    all of it summed in wrapping 64-bit arithmetic; the net contribution
    is negative exactly when there is no reference or the replica-set
    references number fewer than a hundred times the disqualifying
    ones. *)
Theorem scoreByOwnerType_adds st :
  validState st →
  Forall (λ c, Int.InRange (Score c)) (cands st) →
  (∃ st', scoreByOwnerType st = Some st'
          ∧ Forall2 (adds ownerDelta (heap st)) (cands st) (cands st'))
  ∧ ∀ pod,
      ownerDelta pod =
        (if decide (v1.OwnerReferences pod = []) then -1000 else 0)
        + 100 * Z.of_nat (length (filter isReplicaSet (v1.OwnerReferences pod)))
        - 10000 * Z.of_nat (length (filter isVetoKind (v1.OwnerReferences pod)))
      ∧ (ownerDelta pod < 0 ↔
         v1.OwnerReferences pod = []
         ∨ replicaSetRefs pod < 100 * vetoRefs pod).
Proof.
  intros Hv Hr. split.
  - destruct (pass_adds Int.InRange ownerBody ownerDelta st
                ownerBody_delta Hv Hr)
      as (st' & H1 & _ & H2). by exists st'.
  - intros pod. split; [done|apply ownerDelta_sign].
Qed.

Lemma scoreByOwnerType_adds_witness :
  validState sampleState
  ∧ Forall (λ c, Int.InRange (Score c)) (cands sampleState)
  ∧ (∃ st', scoreByOwnerType sampleState = Some st'
            ∧ Forall2 (adds ownerDelta (heap sampleState))
                      (cands sampleState) (cands st'))
  ∧ ∀ pod,
      ownerDelta pod =
        (if decide (v1.OwnerReferences pod = []) then -1000 else 0)
        + 100 * Z.of_nat (length (filter isReplicaSet (v1.OwnerReferences pod)))
        - 10000 * Z.of_nat (length (filter isVetoKind (v1.OwnerReferences pod)))
      ∧ (ownerDelta pod < 0 ↔
         v1.OwnerReferences pod = []
         ∨ replicaSetRefs pod < 100 * vetoRefs pod).
Proof.
  assert (Hr : Forall (λ c, Int.InRange (Score c)) (cands sampleState))
    by (repeat constructor; discriminate).
  split; [apply fresh_valid|]. split; [exact Hr|].
  exact (scoreByOwnerType_adds sampleState (fresh_valid _) Hr).
Defined.

(** C5, as stated, fails: [outweighedPod] has a daemon-set owner, and the
    pass's net contribution to it is +100. *)
Lemma owner_veto_outweighed :
  ownerVeto outweighedPod
  ∧ ownerDelta outweighedPod = 100
  ∧ ownerBody outweighedPod 0 = 100.
Proof.
  split; [|split; vm_compute; reflexivity].
  change (Exists isVetoKind (replicate 101 replicaSetRef ++ [daemonSetRef])).
  apply Exists_app. right. constructor. by right.
Qed.



(** *** The age pass *)

Lemma ageBonus_mono d1 d2 : d1 <= d2 → ageBonus d1 <= ageBonus d2.
Proof.
  intros H. rewrite !ageBonus_max. apply FloorLog1p_mono.
  pose proof (Z.quot_le_mono d1 d2 time.Second eq_refl H). lia.
Qed.

Lemma ageBody_eligible now minPodAge pod start sc :
  v1.StartTime (v1.Status pod) = Some start →
  minPodAge <= time.Sub now start →
  ageBody now minPodAge pod sc = Int.add sc (ageBonus (time.Sub now start)).
Proof.
  intros Hs Hge. unfold ageBody. rewrite Hs. cbv zeta.
  by destruct (Z.ltb_spec (time.Sub now start) minPodAge); [lia|].
Qed.

(** C7. Of two pods that are both old enough ([minPodAge] or more), the
    strictly older one receives an age delta at least as large as the
    younger one's, whatever else the pods are made of: the delta grows
    monotonically with the age, and so does the score of two candidates
    that entered the pass with the same score. *)
Theorem age_delta_monotone now minPodAge pod1 pod2 start1 start2 sc :
  v1.StartTime (v1.Status pod1) = Some start1 →
  v1.StartTime (v1.Status pod2) = Some start2 →
  minPodAge <= time.Sub now start1 →
  time.Sub now start1 < time.Sub now start2 →
  - 2 ^ 62 <= sc <= 2 ^ 62 →
  ageBonus (time.Sub now start1) <= ageBonus (time.Sub now start2)
  ∧ ageBody now minPodAge pod1 sc = sc + ageBonus (time.Sub now start1)
  ∧ ageBody now minPodAge pod2 sc = sc + ageBonus (time.Sub now start2)
  ∧ ageBody now minPodAge pod1 sc - sc <= ageBody now minPodAge pod2 sc - sc.
Proof.
  intros H1 H2 Hmin Hlt Hsc.
  pose proof (ageBonus_mono (time.Sub now start1) (time.Sub now start2)
                ltac:(lia)) as Hmono.
  assert (Hrange : ∀ d, 0 <= ageBonus d <= 44)
    by (intros d; rewrite ageBonus_max; apply FloorLog1p_range).
  pose proof (Hrange (time.Sub now start1)).
  pose proof (Hrange (time.Sub now start2)).
  rewrite (ageBody_eligible _ _ _ _ _ H1) by done.
  rewrite (ageBody_eligible _ _ _ _ _ H2) by lia.
  unfold Int.add.
  rewrite !wrap_id by in_range. lia.
Qed.

Lemma age_delta_monotone_witness :
  ageBonus (time.Sub sampleNow (sampleNow - 3600 * time.Second))
  <= ageBonus (time.Sub sampleNow (sampleNow - 86400 * time.Second))
  ∧ ageBody sampleNow 60
      (samplePod v1.PodQOSGuaranteed (startedAgo 3600) [replicaSetRef]) 0
    = 0 + ageBonus (time.Sub sampleNow (sampleNow - 3600 * time.Second))
  ∧ ageBody sampleNow 60
      (samplePod v1.PodQOSGuaranteed (startedAgo 86400) [replicaSetRef]) 0
    = 0 + ageBonus (time.Sub sampleNow (sampleNow - 86400 * time.Second))
  ∧ ageBody sampleNow 60
      (samplePod v1.PodQOSGuaranteed (startedAgo 3600) [replicaSetRef]) 0 - 0
    <= ageBody sampleNow 60
         (samplePod v1.PodQOSGuaranteed (startedAgo 86400) [replicaSetRef]) 0
       - 0.
Proof.
  apply (age_delta_monotone sampleNow 60
           (samplePod v1.PodQOSGuaranteed (startedAgo 3600) [replicaSetRef])
           (samplePod v1.PodQOSGuaranteed (startedAgo 86400) [replicaSetRef])
           (sampleNow - 3600 * time.Second)
           (sampleNow - 86400 * time.Second) 0).
  - reflexivity.
  - reflexivity.
  - vm_compute. discriminate.
  - vm_compute. reflexivity.
  - vm_compute. split; discriminate.
Defined.

(** C3, on the code.  The age pass measures the age in whole seconds, so
    its delta is 0 at one second, 4 at one minute, 8 at one hour, 11 at
    one day and 17 at one year, and 22 at most; the values 20, 24, 28
    and 32 are those of the same formula on the age in nanoseconds. *)
Theorem age_delta_values :
  cands <$> scoreByAge sampleNow 0
    (PodCandidateSetFromPodList
       {| v1.Items :=
            (λ seconds, samplePod v1.PodQOSGuaranteed (startedAgo seconds) [])
            <$> [1; 60; 3600; 86400; 31536000] |})
  = Some [{| Pod := 0; Score := 0 |}; {| Pod := 1; Score := 4 |};
          {| Pod := 2; Score := 8 |}; {| Pod := 3; Score := 11 |};
          {| Pod := 4; Score := 17 |}]
  ∧ ageBonus time.maxDuration = 22
  ∧ math.FloorLog1p <$> ((λ seconds, seconds * time.Second)
                         <$> [1; 60; 3600; 86400])
    = [20; 24; 28; 32].
Proof. repeat split; vm_compute; reflexivity. Qed.

(** *** The watcher *)

(** C8. [NewWatcher] returns the error of [procfs.NewDefaultFS] when the
    host has no procfs, whatever the threshold; otherwise it returns a
    watcher that polls every 15 seconds, is not in the high state, and
    whose threshold is the caller's, 25 standing in for a threshold
    of 0. *)
Theorem NewWatcher_spec :
  (∀ err threshold, NewWatcher (inr err) threshold = inr err)
  ∧ (∀ fs threshold,
       ∃ w, NewWatcher (inl fs) threshold = inl w
            ∧ TickerInterval w = 15 * time.Second
            ∧ proc w = fs
            ∧ isCurrentlyHigh w = false
            ∧ PressureThreshold w
              = if PrimFloat.eqb threshold 0 then 25%float else threshold)
  ∧ (∀ fs, NewWatcher (inl fs) 0
           = inl {| TickerInterval := 15000000000;
                    PressureThreshold := 25;
                    proc := fs;
                    isCurrentlyHigh := false |}).
Proof.
  split; [done|]. split; [|done].
  intros fs threshold. eexists. split; [reflexivity|]. done.
Qed.

(** C4. The age pass adds exactly one delta to every candidate: -10000
    when its pod has no start time or an age [now - start] strictly below
    [minPodAge], and otherwise the floor of [ln (1 + age)], where [age] is
    the age in whole seconds, raised to 1 when it is less. *)
Theorem scoreByAge_adds now minPodAge st :
  validState st →
  (∃ st', scoreByAge now minPodAge st = Some st'
          ∧ Forall2 (adds (ageDelta now minPodAge) (heap st))
                    (cands st) (cands st'))
  ∧ ∀ pod,
      match v1.StartTime (v1.Status pod) with
      | None => ageDelta now minPodAge pod = -10000
      | Some start =>
          (time.Sub now start < minPodAge →
           ageDelta now minPodAge pod = -10000)
          ∧ (minPodAge <= time.Sub now start →
             RealSpec.IsFloorLog1p
               (Z.max 1 (time.Sub now start ÷ time.Second))
               (ageDelta now minPodAge pod))
      end.
Proof.
  intros Hv. split.
  - destruct (pass_adds (λ _, True) (ageBody now minPodAge)
                (ageDelta now minPodAge) st) as (st' & H1 & _ & H2).
    + intros pod sc _. apply ageBody_delta.
    + exact Hv.
    + by apply Forall_forall.
    + by exists st'.
  - intros pod. unfold ageDelta.
    destruct (v1.StartTime (v1.Status pod)) as [start|]; [|done]. split.
    + intros Hlt. by rewrite decide_True.
    + intros Hge. rewrite decide_False by lia.
      apply LogSpec.FloorLog1p_spec.
      assert (time.Sub now start <= 2 ^ 63 - 1)
        by (unfold time.Sub, time.maxDuration, time.minDuration; lia).
      pose proof (Z.quot_le_mono _ _ time.Second eq_refl H).
      assert ((2 ^ 63 - 1) ÷ time.Second < 2 ^ 63) by (vm_compute; done).
      lia.
Qed.

Lemma scoreByAge_adds_witness :
  validState sampleState
  ∧ (∃ st', scoreByAge sampleNow 60 sampleState = Some st'
            ∧ Forall2 (adds (ageDelta sampleNow 60) (heap sampleState))
                      (cands sampleState) (cands st'))
  ∧ ∀ pod,
      match v1.StartTime (v1.Status pod) with
      | None => ageDelta sampleNow 60 pod = -10000
      | Some start =>
          (time.Sub sampleNow start < 60 →
           ageDelta sampleNow 60 pod = -10000)
          ∧ (60 <= time.Sub sampleNow start →
             RealSpec.IsFloorLog1p
               (Z.max 1 (time.Sub sampleNow start ÷ time.Second))
               (ageDelta sampleNow 60 pod))
      end.
Proof.
  split; [apply fresh_valid|].
  apply (scoreByAge_adds sampleNow 60 sampleState), fresh_valid.
Defined.

(** ** Further properties of the specification *)

(** Candidate-set construction: one candidate per pod, in the order of the
    list, pointing at that pod, with score 0; the pods themselves are the
    heap. *)
Theorem PodCandidateSetFromPodList_spec l :
  heap (PodCandidateSetFromPodList l) = v1.Items l
  ∧ length (cands (PodCandidateSetFromPodList l)) = length (v1.Items l)
  ∧ ∀ i c, cands (PodCandidateSetFromPodList l) !! i = Some c ↔
           (i < length (v1.Items l))%nat ∧ c = {| Pod := i; Score := 0 |}.
Proof.
  split; [done|]. split; [apply length_imap|].
  intros i c. simpl. rewrite list_lookup_imap_Some. split.
  - intros (pod & Hpod & ->). split; [|done]. by apply lookup_lt_Some in Hpod.
  - intros [Hi ->]. destruct (lookup_lt_is_Some_2 _ _ Hi) as [pod Hpod].
    by exists pod.
Qed.

(** The scenario of three workloads, with [minPodAge] of 30 seconds: B is
    vetoed by its age, C by its owner, and A, the only candidate with a
    score that is not negative, is selected. *)
Theorem scenario_selects_A :
  SelectPodForEviction sampleNow (30 * time.Second)
    (PodCandidateSetFromPodList
       {| v1.Items := [scenarioB; scenarioC; scenarioA] |})
  = Some (Some 2%nat,
          {| heap := [scenarioB; scenarioC; scenarioA];
             cands := [{| Pod := 2; Score := 213 |};
                       {| Pod := 0; Score := -9800 |};
                       {| Pod := 1; Score := -9987 |}] |}).
Proof. vm_compute. reflexivity. Qed.

(** A pod without owner references is never selected from a fresh
    candidate set: the -1000 of the owner-type pass outweighs every
    bonus it can collect. *)
Theorem unowned_never_selected l now minPodAge i pod :
  v1.Items l !! i = Some pod →
  v1.OwnerReferences pod = [] →
  finalScore now minPodAge pod 0 < 0
  ∧ ∃ res st',
      SelectPodForEviction now minPodAge (PodCandidateSetFromPodList l)
        = Some (res, st')
      ∧ res ≠ Some i
      ∧ ∀ c, c ∈ cands st' → Pod c = i → Score c < 0.
Proof.
  intros Hi Hrefs.
  assert (Hneg : finalScore now minPodAge pod 0 < 0).
  { rewrite finalScore_delta. unfold Int.add.
    pose proof (qosDelta_range pod).
    pose proof (ageDelta_range now minPodAge pod).
    pose proof (critDelta_range pod).
    assert (ownerDelta pod = -1000) as ->.
    { unfold ownerDelta, replicaSetRefs, vetoRefs. by rewrite Hrefs. }
    rewrite wrap_id; [lia|in_range]. }
  split; [exact Hneg|]. by apply negative_never_selected with pod.
Qed.

Lemma unowned_never_selected_witness :
  finalScore sampleNow 0
    (samplePod v1.PodQOSGuaranteed (startedAgo 3600) []) 0 < 0
  ∧ ∃ res st',
      SelectPodForEviction sampleNow 0
        (PodCandidateSetFromPodList
           {| v1.Items := [samplePod v1.PodQOSGuaranteed
                             (startedAgo 3600) []] |})
        = Some (res, st')
      ∧ res ≠ Some 0%nat
      ∧ ∀ c, c ∈ cands st' → Pod c = 0%nat → Score c < 0.
Proof.
  apply (unowned_never_selected
           {| v1.Items := [samplePod v1.PodQOSGuaranteed
                             (startedAgo 3600) []] |}
           sampleNow 0 0%nat
           (samplePod v1.PodQOSGuaranteed (startedAgo 3600) []));
    reflexivity.
Defined.

Lemma runPasses_sum ps pod : ∀ sc,
  Forall (λ p, ∀ sc, Int.InRange sc → p.1 pod sc = Int.add sc (p.2 pod)) ps →
  Int.InRange sc →
  runPasses ps pod sc = Int.add sc (foldr (λ p acc, p.2 pod + acc) 0 ps).
Proof.
  unfold runPasses. induction ps as [|p ps IH]; intros sc Hall Hsc.
  - by apply add_0_InRange.
  - apply Forall_cons in Hall as [Hp Hall]. simpl.
    rewrite Hp by done. rewrite IH by (done || apply add_InRange).
    by rewrite add_add.
Qed.

Lemma sum_deltas_perm (ps ps' : list ((v1.Pod → Z → Z) * (v1.Pod → Z))) pod :
  ps ≡ₚ ps' →
  foldr (λ p acc, p.2 pod + acc) 0 ps = foldr (λ p acc, p.2 pod + acc) 0 ps'.
Proof. induction 1; simpl; lia. Qed.

Lemma passes_add now minPodAge pod :
  Forall (λ p, ∀ sc, Int.InRange sc → p.1 pod sc = Int.add sc (p.2 pod))
         (passes now minPodAge).
Proof.
  repeat constructor; simpl; intros sc Hsc.
  - apply ageBody_delta.
  - by apply qosBody_delta.
  - by apply ownerBody_delta.
  - by apply critBody_delta.
Qed.

(** The order in which the four passes run does not matter: run in any
    order on a candidate whose score is a 64-bit integer, they leave the
    score [SelectPodForEviction] computes. *)
Theorem pass_order_irrelevant now minPodAge ps pod sc :
  ps ≡ₚ passes now minPodAge →
  Int.InRange sc →
  runPasses ps pod sc = finalScore now minPodAge pod sc.
Proof.
  intros Hperm Hsc.
  rewrite runPasses_sum; [|by rewrite Hperm; apply passes_add|done].
  rewrite (sum_deltas_perm _ _ pod Hperm), finalScore_delta.
  simpl. f_equal. lia.
Qed.

Lemma pass_order_irrelevant_witness :
  runPasses (reverse (passes sampleNow 0)) scenarioA 0
  = finalScore sampleNow 0 scenarioA 0.
Proof.
  apply (pass_order_irrelevant sampleNow 0 (reverse (passes sampleNow 0))
           scenarioA 0).
  - apply reverse_Permutation.
  - vm_compute. split; discriminate.
Defined.

(** ** Which candidate is selected *)

Lemma filter_head_split {A} (P : A → Prop) `{∀ x, Decision (P x)} l c t :
  filter P l = c :: t →
  ∃ l1 l2, l = l1 ++ c :: l2 ∧ Forall (λ x, ¬ P x) l1.
Proof.
  induction l as [|a l IH]; [done|]. rewrite filter_cons.
  destruct (decide (P a)) as [Ha|Ha].
  - intros [= -> _]. by exists [], l.
  - intros (l1 & l2 & -> & Hl1)%IH. exists (a :: l1), l2.
    split; [done|by constructor].
Qed.

(** On a ranked list the scan stops at the head. *)
Lemma firstNonNegative_descending s :
  descending s →
  firstNonNegative s =
  match s with
  | [] => None
  | c :: _ => if Score c <? 0 then None else Some (Pod c)
  end.
Proof.
  destruct s as [|c s]; [done|]. intros [_ Hc]%StronglySorted_inv. simpl.
  destruct (Z.ltb_spec (Score c) 0); [|done].
  apply firstNonNegative_None. eapply Forall_impl; [exact Hc|].
  simpl. intros; lia.
Qed.

(** The pod returned is that of the candidate with the greatest final
    score, and among several of that score the one that stands first in
    the input; the greatest score is then not negative. *)
Theorem selects_first_maximum now minPodAge st p :
  validState st →
  (fst <$> SelectPodForEviction now minPodAge st) = Some (Some p) →
  ∃ scored l1 c l2,
    Forall2 (rescored (finalScore now minPodAge) (heap st))
            (cands st) (cands scored)
    ∧ cands scored = l1 ++ c :: l2
    ∧ Pod c = p
    ∧ 0 <= Score c
    ∧ Forall (λ c', Score c' < Score c) l1
    ∧ Forall (λ c', Score c' <= Score c) l2.
Proof.
  intros Hv Hsel.
  destruct (Select_result now minPodAge st Hv) as (scored & Hs & Hres).
  rewrite Hres in Hsel. simpl in Hsel. injection Hsel as Hsel.
  pose proof (stableDesc_descending (cands scored)) as Hdesc.
  rewrite firstNonNegative_descending in Hsel by done.
  destruct (stableDesc (cands scored)) as [|c rest] eqn:Er; [done|].
  destruct (Z.ltb_spec (Score c) 0) as [|Hge]; [done|].
  injection Hsel as Hp.
  apply StronglySorted_inv in Hdesc as [_ Hrest].
  assert (Hmax : ∀ c', c' ∈ cands scored → Score c' <= Score c).
  { intros c' Hc'. rewrite <- stableDesc_perm, Er in Hc'.
    apply elem_of_cons in Hc' as [->|Hc']; [lia|].
    rewrite Forall_forall in Hrest. by apply Hrest. }
  pose proof (stableDesc_stable (Score c) (cands scored)) as Hst.
  rewrite Er, filter_cons_True in Hst by done. symmetry in Hst.
  apply filter_head_split in Hst as (l1 & l2 & E & Hl1).
  exists scored, l1, c, l2.
  split; [by apply forEach_Some in Hs as [_ ?]|].
  repeat split; try done.
  - apply Forall_forall. intros c' Hc'.
    rewrite Forall_forall in Hl1. specialize (Hl1 c' Hc').
    assert (Score c' <= Score c); [|simpl in Hl1; lia].
    apply Hmax. rewrite E. set_solver.
  - apply Forall_forall. intros c' Hc'. apply Hmax. rewrite E. set_solver.
Qed.

Lemma selects_first_maximum_witness :
  ∃ scored l1 c l2,
    Forall2 (rescored (finalScore sampleNow 0) (heap sampleState))
            (cands sampleState) (cands scored)
    ∧ cands scored = l1 ++ c :: l2
    ∧ Pod c = 1%nat
    ∧ 0 <= Score c
    ∧ Forall (λ c', Score c' < Score c) l1
    ∧ Forall (λ c', Score c' <= Score c) l2.
Proof.
  apply (selects_first_maximum sampleNow 0 sampleState 1%nat).
  - apply fresh_valid.
  - vm_compute. reflexivity.
Defined.

(** ** Nil pods *)

Lemma forEach_None body st : forEach body st = None ↔ ¬ validState st.
Proof.
  split.
  - intros Hn Hv. destruct (forEach_total body st Hv) as [st' Hst'].
    by rewrite Hst' in Hn.
  - intros Hv. destruct (forEach body st) as [st'|] eqn:E; [|done].
    by apply forEach_valid in E as [? _].
Qed.

(** A scoring pass, and the selection as a whole, panics exactly when
    some candidate has no pod to point at; a candidate set built by
    [PodCandidateSetFromPodList] has none, so selecting from it always
    returns. *)
Theorem panics_iff_nil_pod now minPodAge st :
  (scoreByAge now minPodAge st = None ↔ ¬ validState st)
  ∧ (scoreByQOSClass st = None ↔ ¬ validState st)
  ∧ (scoreByOwnerType st = None ↔ ¬ validState st)
  ∧ (scoreByCriticality st = None ↔ ¬ validState st)
  ∧ (SelectPodForEviction now minPodAge st = None ↔ ¬ validState st)
  ∧ ∀ l, is_Some (SelectPodForEviction now minPodAge
                    (PodCandidateSetFromPodList l)).
Proof.
  repeat split; try apply forEach_None.
  - rewrite Select_unfold, <- (forEach_None (finalScore now minPodAge)).
    by destruct (forEach _ st).
  - rewrite Select_unfold, <- (forEach_None (finalScore now minPodAge)).
    by intros ->.
  - intros l. destruct (Select_result now minPodAge _ (fresh_valid l))
      as (scored & _ & ->). by eexists.
Qed.

(** ** The QoS and criticality passes *)

(** The QoS pass adds 100 to the candidates of best-effort and of
    burstable pods alike, and leaves every other candidate's score alone,
    that of a guaranteed pod and that of a pod without QoS class
    included: it rewards, and never vetoes. *)
Theorem scoreByQOSClass_adds st :
  validState st →
  Forall (λ c, Int.InRange (Score c)) (cands st) →
  (∃ st', scoreByQOSClass st = Some st'
          ∧ Forall2 (adds qosDelta (heap st)) (cands st) (cands st'))
  ∧ ∀ pod,
      (v1.QOSClass (v1.Status pod) = "BestEffort" → qosDelta pod = 100)
      ∧ (v1.QOSClass (v1.Status pod) = "Burstable" → qosDelta pod = 100)
      ∧ (v1.QOSClass (v1.Status pod) ≠ "BestEffort" →
         v1.QOSClass (v1.Status pod) ≠ "Burstable" →
         qosDelta pod = 0 ∧ ∀ sc, qosBody pod sc = sc).
Proof.
  intros Hv Hr. split.
  - destruct (pass_adds Int.InRange qosBody qosDelta st
                qosBody_delta Hv Hr) as (st' & H1 & _ & H2).
    by exists st'.
  - intros pod. unfold qosDelta, qosBody, v1.PodQOSBestEffort,
      v1.PodQOSBurstable. cbv zeta. repeat split.
    + intros E. rewrite decide_True; [done|by left].
    + intros E. rewrite decide_True; [done|by right].
    + rewrite decide_False; [done|]. intros [?|?]; done.
    + intros sc.
      destruct (String.eqb_spec (v1.QOSClass (v1.Status pod)) "BestEffort");
        [done|].
      by destruct (String.eqb_spec (v1.QOSClass (v1.Status pod)) "Burstable").
Qed.

Lemma scoreByQOSClass_adds_witness :
  (∃ st', scoreByQOSClass sampleState = Some st'
          ∧ Forall2 (adds qosDelta (heap sampleState))
                    (cands sampleState) (cands st'))
  ∧ ∀ pod,
      (v1.QOSClass (v1.Status pod) = "BestEffort" → qosDelta pod = 100)
      ∧ (v1.QOSClass (v1.Status pod) = "Burstable" → qosDelta pod = 100)
      ∧ (v1.QOSClass (v1.Status pod) ≠ "BestEffort" →
         v1.QOSClass (v1.Status pod) ≠ "Burstable" →
         qosDelta pod = 0 ∧ ∀ sc, qosBody pod sc = sc).
Proof.
  apply (scoreByQOSClass_adds sampleState).
  - apply fresh_valid.
  - repeat constructor; discriminate.
Defined.

Lemma critDelta_count pod : critDelta pod = -10000 * critCount pod.
Proof. unfold critDelta, critCount. repeat case_decide; lia. Qed.

Lemma critCount_veto pod : 1 <= critCount pod ↔ critVeto pod.
Proof.
  unfold critCount, critVeto. split.
  - intros H. repeat case_decide; tauto || lia.
  - intros [H|[H|H]]; repeat case_decide; done || lia.
Qed.

(** The criticality pass subtracts 10000 once for each of its three
    conditions that holds (the kube-system namespace, one of the two
    critical priority classes, the presence of the critical-pod
    annotation), so that several of them stack; the value of the
    annotation plays no part, an empty one vetoes as any other does. *)
Theorem scoreByCriticality_adds st :
  validState st →
  Forall (λ c, Int.InRange (Score c)) (cands st) →
  (∃ st', scoreByCriticality st = Some st'
          ∧ Forall2 (adds critDelta (heap st)) (cands st) (cands st'))
  ∧ ∀ pod,
      critDelta pod = -10000 * critCount pod
      ∧ 0 <= critCount pod <= 3
      ∧ (critDelta pod < 0 ↔ critVeto pod)
      ∧ ∀ value sc,
          critVeto (withCriticalAnnotation pod value)
          ∧ critBody (withCriticalAnnotation pod value) sc
            = critBody (withCriticalAnnotation pod "") sc.
Proof.
  intros Hv Hr. split.
  - destruct (pass_adds Int.InRange critBody critDelta st
                critBody_delta Hv Hr) as (st' & H1 & _ & H2).
    by exists st'.
  - intros pod. split; [apply critDelta_count|].
    split; [unfold critCount; repeat case_decide; lia|].
    split.
    { rewrite critDelta_count, <- critCount_veto. lia. }
    intros value sc. split.
    + right. right. unfold hasCriticalAnnotation, withCriticalAnnotation.
      simpl. rewrite lookup_insert_eq. by eexists.
    + unfold critBody, withCriticalAnnotation. simpl.
      by rewrite !lookup_insert_eq.
Qed.

Lemma scoreByCriticality_adds_witness :
  (∃ st', scoreByCriticality sampleState = Some st'
          ∧ Forall2 (adds critDelta (heap sampleState))
                    (cands sampleState) (cands st'))
  ∧ ∀ pod,
      critDelta pod = -10000 * critCount pod
      ∧ 0 <= critCount pod <= 3
      ∧ (critDelta pod < 0 ↔ critVeto pod)
      ∧ ∀ value sc,
          critVeto (withCriticalAnnotation pod value)
          ∧ critBody (withCriticalAnnotation pod value) sc
            = critBody (withCriticalAnnotation pod "") sc.
Proof.
  apply (scoreByCriticality_adds sampleState).
  - apply fresh_valid.
  - repeat constructor; discriminate.
Defined.

(** ** The range of the age bonus *)

Lemma Sub_range t u : time.minDuration <= time.Sub t u <= time.maxDuration.
Proof. unfold time.Sub, time.minDuration, time.maxDuration. lia. Qed.

Lemma ageBonus_range d : d <= time.maxDuration → 0 <= ageBonus d <= 22.
Proof.
  intros Hd. split.
  - rewrite ageBonus_max. apply FloorLog1p_range.
  - change 22 with (ageBonus time.maxDuration). by apply ageBonus_mono.
Qed.

(** Whatever the clock, the threshold and the pod, the age pass either
    vetoes (-10000) or adds a bonus between 0 and 22; the bonus is 0 for
    an eligible pod less than two seconds old, one whose start time lies
    in the future included. *)
Theorem age_delta_bounds now minPodAge pod sc :
  ∃ d, ageBody now minPodAge pod sc = Int.add sc d
       ∧ (d = -10000 ∨ 0 <= d <= 22)
       ∧ (ageVeto now minPodAge pod ↔ d = -10000)
       ∧ ∀ start, v1.StartTime (v1.Status pod) = Some start →
                  minPodAge <= time.Sub now start →
                  time.Sub now start < 2 * time.Second →
                  d = 0.
Proof.
  exists (ageDelta now minPodAge pod). split; [apply ageBody_delta|].
  unfold ageDelta, ageVeto.
  destruct (v1.StartTime (v1.Status pod)) as [start|]; [|by repeat split; auto].
  pose proof (Sub_range now start) as [_ Hmax].
  pose proof (ageBonus_range _ Hmax) as Hb. rewrite ageBonus_max in Hb.
  case_decide as Hlt.
  - repeat split; auto. intros start' [= <-] ?. lia.
  - repeat split; auto; try lia.
    intros start' [= <-] _ Hyoung.
    assert (Z.max 1 (time.Sub now start ÷ time.Second) = 1) as ->; [|done].
    assert (time.Sub now start ÷ time.Second <= 1); [|lia].
    transitivity ((2 * time.Second - 1) ÷ time.Second);
      [apply Z.quot_le_mono; [done|lia]|by vm_compute].
Qed.

(** A start time more than the longest [time.Duration] (some 292 years)
    before now, the zero [time.Time] for one, makes [now.Sub] saturate:
    such a pod is never too young and its bonus is 22. *)
Theorem saturated_age_gets_22 now minPodAge pod start sc :
  v1.StartTime (v1.Status pod) = Some start →
  time.maxDuration <= now - start →
  minPodAge <= time.maxDuration →
  ¬ ageVeto now minPodAge pod
  ∧ ageBody now minPodAge pod sc = Int.add sc 22.
Proof.
  intros Hs Hold Hmin.
  assert (Hsub : time.Sub now start = time.maxDuration)
    by (unfold time.Sub, time.minDuration, time.maxDuration in *; lia).
  split.
  - unfold ageVeto. rewrite Hs, Hsub. lia.
  - rewrite (ageBody_eligible _ _ _ _ _ Hs) by (rewrite Hsub; lia).
    by rewrite Hsub.
Qed.

Lemma saturated_age_gets_22_witness :
  ¬ ageVeto sampleNow (3600 * time.Second)
      (samplePod v1.PodQOSGuaranteed (Some (- 62135596800 * time.Second)) [])
  ∧ ageBody sampleNow (3600 * time.Second)
      (samplePod v1.PodQOSGuaranteed (Some (- 62135596800 * time.Second)) []) 0
    = Int.add 0 22.
Proof.
  apply (saturated_age_gets_22 sampleNow (3600 * time.Second)
           (samplePod v1.PodQOSGuaranteed
              (Some (- 62135596800 * time.Second)) [])
           (- 62135596800 * time.Second) 0).
  - reflexivity.
  - vm_compute. discriminate.
  - vm_compute. discriminate.
Defined.

(** ** The sort interface of the candidate set *)

(** Both lookups of a method that indexes [s] at [i] and at [j]. *)
Ltac index_panic s i j :=
  let Ei := fresh "Ei" in
  let Ej := fresh "Ej" in
  destruct (s !! i) eqn:Ei; simpl;
  [ destruct (s !! j) eqn:Ej; simpl;
    [ split; [done|];
      intros [H|H]; apply lookup_ge_None in H; congruence
    | split; [|done]; intros _; right; by apply lookup_ge_None ]
  | split; [|done]; intros _; left; by apply lookup_ge_None ].

Lemma Swap_Some (s : list PodCandidate) i j s' :
  Swap s i j = Some s' ↔
  ∃ x y, s !! i = Some x ∧ s !! j = Some y ∧ s' = <[j := x]> (<[i := y]> s).
Proof.
  unfold Swap. split.
  - destruct (s !! i) as [x|]; [|done]. destruct (s !! j) as [y|]; [|done].
    intros [= <-]. by exists x, y.
  - intros (x & y & -> & -> & ->). done.
Qed.

Lemma swapped_lookup (s : list PodCandidate) i j x y k :
  s !! i = Some x → s !! j = Some y →
  <[j := x]> (<[i := y]> s) !! k =
  if decide (k = j) then Some x else if decide (k = i) then Some y else s !! k.
Proof.
  intros Hi Hj.
  pose proof (lookup_lt_Some _ _ _ Hi). pose proof (lookup_lt_Some _ _ _ Hj).
  rewrite !list_lookup_insert, !length_insert.
  repeat case_decide; try done; lia.
Qed.

(** [Swap] panics exactly when an index is out of range; otherwise it
    exchanges the candidates at the two indices, leaves every other one
    and the length as they were, and undoes itself when repeated. *)
Theorem Swap_exchanges (s : list PodCandidate) (i j : nat) :
  (Swap s i j = None ↔ (length s <= i ∨ length s <= j)%nat)
  ∧ ∀ s', Swap s i j = Some s' →
      length s' = length s
      ∧ s' !! i = s !! j
      ∧ s' !! j = s !! i
      ∧ (∀ k, k ≠ i → k ≠ j → s' !! k = s !! k)
      ∧ Swap s' i j = Some s.
Proof.
  split.
  - unfold Swap. index_panic s i j.
  - intros s' (x & y & Hi & Hj & ->)%Swap_Some.
    split; [by rewrite !length_insert|].
    split; [rewrite (swapped_lookup s i j x y) by done;
            repeat case_decide; congruence|].
    split; [rewrite (swapped_lookup s i j x y) by done;
            repeat case_decide; congruence|].
    split.
    { intros k Hki Hkj. rewrite (swapped_lookup s i j x y) by done.
      by rewrite !decide_False. }
    apply Swap_Some. exists y, x.
    assert (Hi' : <[j:=x]> (<[i:=y]> s) !! i = Some y)
      by (rewrite (swapped_lookup s i j x y) by done;
          repeat case_decide; congruence).
    assert (Hj' : <[j:=x]> (<[i:=y]> s) !! j = Some x)
      by (rewrite (swapped_lookup s i j x y) by done;
          repeat case_decide; congruence).
    split; [done|]. split; [done|].
    apply list_eq. intros k.
    rewrite (swapped_lookup _ i j y x) by done.
    repeat case_decide; subst; try done.
    by rewrite (swapped_lookup s i j x y), !decide_False.
Qed.

Lemma Less_Some (s : list PodCandidate) i j b :
  Less s i j = Some b ↔
  ∃ x y, s !! i = Some x ∧ s !! j = Some y ∧ b = (Score x <? Score y).
Proof.
  unfold Less. split.
  - destruct (s !! i) as [x|]; [|done]. destruct (s !! j) as [y|]; [|done].
    intros [= <-]. by exists x, y.
  - intros (x & y & -> & -> & ->). done.
Qed.

(** [Less] panics exactly when an index is out of range, and within
    range it is the strict weak order [sort.Stable] asks for: no index is
    less than itself, less-than is transitive, and so is not-less-than;
    under [sort.Reverse] the two indices change places. *)
Theorem Less_strict_weak_order (s : list PodCandidate) :
  (∀ i j, Less s i j = None ↔ (length s <= i ∨ length s <= j)%nat)
  ∧ (∀ i, Less s i i ≠ Some true)
  ∧ (∀ i j k, Less s i j = Some true → Less s j k = Some true →
              Less s i k = Some true)
  ∧ (∀ i j k, Less s i j = Some false → Less s j k = Some false →
              Less s i k = Some false)
  ∧ (∀ i j, @sort.Less _ (sort.Reverse PodCandidateSet_Interface) s i j
            = Less s j i).
Proof.
  split; [|split; [|split; [|split]]].
  - intros i j. unfold Less. index_panic s i j.
  - intros i (x & y & Hx & Hy & Hb)%Less_Some.
    rewrite Hx in Hy. injection Hy as <-. symmetry in Hb.
    apply Z.ltb_lt in Hb. lia.
  - intros i j k (x & y & Hx & Hy & Hb)%Less_Some
      (y' & z & Hy' & Hz & Hb')%Less_Some.
    rewrite Hy in Hy'. injection Hy' as <-.
    apply Less_Some. exists x, z. repeat split; try done.
    symmetry in Hb, Hb'. apply Z.ltb_lt in Hb, Hb'.
    symmetry. apply Z.ltb_lt. lia.
  - intros i j k (x & y & Hx & Hy & Hb)%Less_Some
      (y' & z & Hy' & Hz & Hb')%Less_Some.
    rewrite Hy in Hy'. injection Hy' as <-.
    apply Less_Some. exists x, z. repeat split; try done.
    symmetry in Hb, Hb'. apply Z.ltb_ge in Hb, Hb'.
    symmetry. apply Z.ltb_ge. lia.
  - done.
Qed.

(** ** Calling again, and when a pod is found *)

Lemma Forall2_elem_r {A B} (P : A → B → Prop) l k y :
  Forall2 P l k → y ∈ k → ∃ x, x ∈ l ∧ P x y.
Proof.
  intros H [i Hi]%list_elem_of_lookup.
  destruct (Forall2_lookup_r _ _ _ _ _ H Hi) as (x & Hx & HP).
  exists x. split; [|done]. apply list_elem_of_lookup. by exists i.
Qed.

(** What a call leaves in the candidate set: every candidate of before,
    with the final score computed from the score it came with. *)
Lemma Select_scores now minPodAge st res st' :
  SelectPodForEviction now minPodAge st = Some (res, st') →
  heap st' = heap st
  ∧ validState st'
  ∧ ∀ c', c' ∈ cands st' →
      ∃ c pod, c ∈ cands st ∧ heap st !! Pod c = Some pod
               ∧ Pod c' = Pod c
               ∧ Score c' = finalScore now minPodAge pod (Score c).
Proof.
  rewrite Select_unfold.
  destruct (forEach (finalScore now minPodAge) st) as [scored|] eqn:Hs;
    [|done].
  intros [= <- <-]. simpl.
  pose proof (forEach_valid _ _ _ Hs) as [_ Hv].
  apply forEach_Some in Hs as [Hh H]. split; [done|]. split.
  - unfold validState in *. simpl. by rewrite stableDesc_perm.
  - intros c' Hc'. rewrite stableDesc_perm in Hc'.
    destruct (Forall2_elem_r _ _ _ _ H Hc') as (c & Hc & pod & Hpod & ->).
    by exists c, pod.
Qed.

(** The scores are not reset between calls: selecting a second time from
    the candidate set a first selection left behind never panics, and it
    ranks by the sum of the deltas of both calls. *)
Theorem scores_accumulate l now1 minPodAge1 now2 minPodAge2 :
  ∃ res1 st1 res2 st2,
    SelectPodForEviction now1 minPodAge1 (PodCandidateSetFromPodList l)
      = Some (res1, st1)
    ∧ SelectPodForEviction now2 minPodAge2 st1 = Some (res2, st2)
    ∧ heap st2 = v1.Items l
    ∧ ∀ c, c ∈ cands st2 →
        ∃ pod, v1.Items l !! Pod c = Some pod
               ∧ Score c = Int.wrap (totalDelta now1 minPodAge1 pod
                                     + totalDelta now2 minPodAge2 pod).
Proof.
  destruct (Select_result now1 minPodAge1 _ (fresh_valid l))
    as (scored1 & _ & H1).
  pose proof (Select_scores _ _ _ _ _ H1) as (Hh1 & Hv1 & Hc1).
  destruct (Select_result now2 minPodAge2 _ Hv1) as (scored2 & _ & H2).
  pose proof (Select_scores _ _ _ _ _ H2) as (Hh2 & _ & Hc2).
  eexists _, _, _, _. split; [exact H1|]. split; [exact H2|].
  split; [by rewrite Hh2, Hh1|].
  intros c (c1 & pod & Hin1 & Hpod & Hp & ->)%Hc2.
  destruct (Hc1 c1 Hin1) as (c0 & pod0 & Hin0 & Hpod0 & Hp0 & Hs0).
  apply elem_of_lookup_imap_1 in Hin0 as (i & pod' & -> & _).
  simpl in *. rewrite Hh1 in Hpod. simpl in Hpod.
  rewrite Hp0, Hpod0 in Hpod. injection Hpod as ->.
  exists pod. split; [by rewrite Hp, Hp0|].
  rewrite Hs0, !finalScore_delta. unfold Int.add, totalDelta.
  rewrite wrap_add_l. f_equal.
Qed.

Lemma ageDelta_eligible now minPodAge pod :
  ¬ ageVeto now minPodAge pod → 0 <= ageDelta now minPodAge pod <= 22.
Proof.
  unfold ageVeto, ageDelta.
  destruct (v1.StartTime (v1.Status pod)) as [start|]; [|done].
  intros H. rewrite decide_False by done. rewrite <- ageBonus_max.
  apply ageBonus_range, Sub_range.
Qed.

Lemma vetoRefs_none pod : ¬ ownerVeto pod → vetoRefs pod = 0.
Proof.
  unfold ownerVeto, vetoRefs. intros H.
  induction (v1.OwnerReferences pod) as [|o refs IH]; [done|].
  rewrite filter_cons. rewrite decide_False.
  - apply IH. intros ?. apply H. by right.
  - intros ?. apply H. by left.
Qed.

(** A pod that no pass vetoes and that has an owner reference (fewer
    than 2^48 of them) has a final score that is not negative, so that a
    list with such a pod never leaves the selection empty-handed. *)
Theorem eligible_pod_prevents_nil l now minPodAge i pod :
  v1.Items l !! i = Some pod →
  ¬ vetoed now minPodAge pod →
  v1.OwnerReferences pod ≠ [] →
  Z.of_nat (length (v1.OwnerReferences pod)) < 2 ^ 48 →
  0 <= finalScore now minPodAge pod 0
  ∧ ∃ p st',
      SelectPodForEviction now minPodAge (PodCandidateSetFromPodList l)
      = Some (Some p, st').
Proof.
  intros Hi Hveto Hne Hlen.
  assert (Hge : 0 <= finalScore now minPodAge pod 0).
  { rewrite finalScore_delta. unfold Int.add.
    pose proof (qosDelta_range pod).
    pose proof (ageDelta_eligible now minPodAge pod
                  ltac:(intros ?; apply Hveto; by left)).
    assert (critDelta pod = 0) as ->.
    { rewrite critDelta_count.
      pose proof (proj1 (critCount_veto pod)).
      assert (¬ critVeto pod) by (intros ?; apply Hveto; by right; right).
      assert (0 <= critCount pod)
        by (unfold critCount; repeat case_decide; lia).
      assert (critCount pod < 1) by (apply Z.nle_gt; tauto). lia. }
    assert (0 <= ownerDelta pod <= 100 * 2 ^ 48) as [? ?].
    { unfold ownerDelta.
      rewrite vetoRefs_none by (intros ?; apply Hveto; by right; left).
      rewrite decide_False by done. unfold replicaSetRefs.
      pose proof (length_filter isReplicaSet (v1.OwnerReferences pod)).
      lia. }
    rewrite wrap_id; [lia|in_range]. }
  split; [exact Hge|].
  destruct (Select_result now minPodAge _ (fresh_valid l))
    as (scored & Hs & Hsel).
  destruct (firstNonNegative (stableDesc (cands scored))) as [p|] eqn:Ef;
    [by eexists _, _|].
  exfalso. apply firstNonNegative_None in Ef.
  rewrite stableDesc_perm in Ef.
  apply forEach_Some in Hs as [_ H].
  assert (Hc : cands (PodCandidateSetFromPodList l) !! i
               = Some {| Pod := i; Score := 0 |})
    by (simpl; by rewrite list_lookup_imap, Hi).
  destruct (Forall2_lookup_l _ _ _ _ _ H Hc) as (c' & Hc' & pod' & Hpod' & ->).
  simpl in Hpod'. rewrite Hi in Hpod'. injection Hpod' as <-.
  rewrite Forall_forall in Ef.
  assert (Hneg : Score {| Pod := i; Score := finalScore now minPodAge pod 0 |}
                 < 0).
  { apply Ef. apply list_elem_of_lookup. by exists i. }
  simpl in Hneg. lia.
Qed.

Lemma eligible_pod_prevents_nil_witness :
  0 <= finalScore sampleNow 60 scenarioA 0
  ∧ ∃ p st',
      SelectPodForEviction sampleNow 60
        (PodCandidateSetFromPodList
           {| v1.Items := [scenarioC; scenarioA] |})
      = Some (Some p, st').
Proof.
  apply (eligible_pod_prevents_nil
           {| v1.Items := [scenarioC; scenarioA] |}
           sampleNow 60 1%nat scenarioA).
  - reflexivity.
  - intros [H|[H|[H|[[H|H]|[v H]]]]].
    + vm_compute in H. discriminate.
    + apply Exists_cons in H as [[H|H]|H]; [discriminate..|].
      by apply Exists_nil in H.
    + discriminate.
    + discriminate.
    + discriminate.
    + vm_compute in H. discriminate.
  - discriminate.
  - vm_compute. reflexivity.
Defined.

(** ** The watcher's threshold *)

(** A watcher never starts with a threshold of zero: a threshold that
    compares equal to 0 (either zero of [float64]) is replaced by 25, and
    every other one, a negative one or a NaN as well, is kept as the
    caller gave it. *)
Theorem NewWatcher_threshold_not_zero fs threshold :
  ∃ w, NewWatcher (inl fs) threshold = inl w
       ∧ PrimFloat.eqb (PressureThreshold w) 0 = false
       ∧ (PrimFloat.eqb threshold 0 = false → PressureThreshold w = threshold)
       ∧ (PrimFloat.eqb threshold 0 = true → PressureThreshold w = 25%float).
Proof.
  eexists. split; [reflexivity|]. simpl.
  destruct (PrimFloat.eqb threshold 0) eqn:E; repeat split; done.
Qed.
